(** * VCF claim value estimator: the projection-and-discounting engine

    A shallow embedding of the computational core of [VCFEstimator.tsx]:
    the bracket lookups, the age-indexed tables, the work-life lookup, the
    year loop of [results] and the offset netting.

    JavaScript numbers are idealised as exact rationals ([Q]): every
    arithmetic expression of the source is kept operator for operator, but
    it is evaluated without rounding, and NaN and the infinities have no
    counterpart: a division by zero, which JavaScript answers with an
    infinity or NaN, is 0 here, and no statement below rests on one.
    [==] is equality of rationals; [=] is used where the code copies or
    builds the very same expression. *)

From Stdlib Require Import QArith Qreduction Qcanon Qround Qminmax Qpower Qfield.
From Stdlib Require Import ZArith List Sorted Lia Lqa.
From stdpp Require Import base option list gmap.
Import ListNotations.

Local Open Scope Q_scope.

(** ** JavaScript primitives used by the engine *)

(** [Math.round]: the nearest integer, ties towards plus infinity. *)
Definition Math_round (x : Q) : Z := Qfloor (x + 1 / 2).

(** [Math.pow(b, t)] for the integer exponents the loops pass. *)
Definition Math_pow (b : Q) (t : Z) : Q := Qpower b t.

(** [Math.max(0, x)] and friends on rationals. *)
Definition Math_max (x y : Q) : Q := Qmax x y.

(** [x >= y] and [x > y] as the tests of the source. *)
Definition geb (x y : Q) : bool := Qle_bool y x.
Definition gtb (x y : Q) : bool := negb (Qle_bool x y).
Definition leb (x y : Q) : bool := Qle_bool x y.
Definition ltb (x y : Q) : bool := negb (Qle_bool y x).
(** [x === y] on numbers. *)
Definition eqb (x y : Q) : bool := Qeq_bool x y.

(** Number of iterations of [for (let t = 1; t <= bound; t++)]. *)
Definition loop_count (bound : Q) : nat := Z.to_nat (Qfloor bound).

(** ** Bracket tables *)

Record TaxRow := mkTaxRow { income : Q; rate : Q }.

Definition NY_EFFECTIVE_TAX_TABLE : list TaxRow :=
  [ mkTaxRow 10000 0.1482; mkTaxRow 20000 0.1481; mkTaxRow 25000 0.1479;
    mkTaxRow 30000 0.1386; mkTaxRow 35000 0.1293; mkTaxRow 40000 0.1345;
    mkTaxRow 45000 0.1396; mkTaxRow 50000 0.1474; mkTaxRow 60000 0.1551;
    mkTaxRow 70000 0.1629; mkTaxRow 80000 0.1706; mkTaxRow 90000 0.1864;
    mkTaxRow 100000 0.2021; mkTaxRow 125000 0.2180; mkTaxRow 150000 0.2338;
    mkTaxRow 175000 0.2497; mkTaxRow 200000 0.2655; mkTaxRow 225000 0.3017;
    mkTaxRow 350000 0.3378 ].

(** The scan shared by both lookups:
    [for (i = 0; i < table.length; i++)
       if (q >= table[i].income) cur = pick(table[i]); else break;]
    [key] reads the threshold of a row and [pick] what the loop keeps. *)
Fixpoint bracket_loop {A B : Type} (key : A -> Q) (pick : A -> B)
    (q : Q) (cur : B) (table : list A) : B :=
  match table with
  | [] => cur
  | r :: rest =>
      if geb q (key r) then bracket_loop key pick q (pick r) rest else cur
  end.

Definition interpolateTaxRate (inc : Q) (table : list TaxRow) : Q :=
  match table with
  | [] => 0
  | r0 :: _ => bracket_loop income rate inc (rate r0) table
  end.

Record ConsumptionRow := mkConsRow {
  c_income : Q;
  Single0 : Q; Single1Plus : Q; Married0 : Q; Married1 : Q; Married2Plus : Q
}.

Definition CONSUMPTION_TABLE : list ConsumptionRow :=
  [ mkConsRow 10000 0.779 0.185 0.370 0.194 0.131;
    mkConsRow 20000 0.763 0.182 0.344 0.184 0.126;
    mkConsRow 25000 0.755 0.180 0.330 0.180 0.123;
    mkConsRow 30000 0.747 0.178 0.317 0.175 0.121;
    mkConsRow 35000 0.753 0.185 0.290 0.169 0.120;
    mkConsRow 40000 0.751 0.185 0.258 0.157 0.113;
    mkConsRow 45000 0.748 0.185 0.226 0.145 0.107;
    mkConsRow 50000 0.732 0.184 0.219 0.142 0.105;
    mkConsRow 60000 0.715 0.182 0.211 0.138 0.103;
    mkConsRow 70000 0.682 0.175 0.189 0.126 0.094;
    mkConsRow 80000 0.641 0.165 0.172 0.116 0.087;
    mkConsRow 90000 0.620 0.160 0.164 0.110 0.083;
    mkConsRow 100000 0.599 0.155 0.155 0.105 0.080;
    mkConsRow 125000 0.548 0.143 0.143 0.097 0.073;
    mkConsRow 150000 0.519 0.137 0.132 0.090 0.069;
    mkConsRow 175000 0.490 0.131 0.120 0.084 0.084;
    mkConsRow 200000 0.337 0.096 0.100 0.070 0.054;
    mkConsRow 225000 0.184 0.060 0.081 0.056 0.043 ].

Inductive Marital := single | married.

(** The column selector of [interpolateConsumption], as a projection. *)
Definition consumption_col (marital : Marital) (childrenUnder23 : Q)
    : ConsumptionRow -> Q :=
  match marital with
  | single => if geb childrenUnder23 1 then Single1Plus else Single0
  | married =>
      if geb childrenUnder23 2 then Married2Plus
      else if eqb childrenUnder23 1 then Married1
      else Married0
  end.

Definition interpolateConsumption (preIncome : Q) (marital : Marital)
    (childrenUnder23 : Q) (table : list ConsumptionRow) : Q :=
  let col := consumption_col marital childrenUnder23 in
  match table with
  | [] => 0
  | r0 :: _ => col (bracket_loop c_income (fun r => r) preIncome r0 table)
  end.

(** [getChildCountUnder23]: a child is ["none"] or a current age. *)
Definition getChildCountUnder23 (ages : list (option Q)) (yearIndex : Q) : Q :=
  let count :=
    fold_left
      (fun (acc : Z) (age : option Q) =>
         match age with
         | Some a => if ltb (a + yearIndex) 23 then (acc + 1)%Z else acc
         | None => acc
         end)
      ages 0%Z in
  inject_Z (Z.min count 2).

(** ** Age-indexed tables *)

(** One [age: rate] entry of the object literal. *)
Definition age_rate (age : Z) (r : Q) : Z * Q := (age, r).

(** [AGE_GROWTH]: an object keyed by the integer ages 18..51. *)
Definition AGE_GROWTH : gmap Z Q :=
  list_to_map
    [ age_rate 18 0.09523; age_rate 19 0.09364; age_rate 20 0.09209; age_rate 21 0.09057;
      age_rate 22 0.08856; age_rate 23 0.08655; age_rate 24 0.08454; age_rate 25 0.08253;
      age_rate 26 0.08053; age_rate 27 0.07853; age_rate 28 0.07654; age_rate 29 0.07455;
      age_rate 30 0.07256; age_rate 31 0.07058; age_rate 32 0.0686; age_rate 33 0.06663;
      age_rate 34 0.06465; age_rate 35 0.06269; age_rate 36 0.06072; age_rate 37 0.05876;
      age_rate 38 0.0568; age_rate 39 0.05484; age_rate 40 0.0529; age_rate 41 0.05095;
      age_rate 42 0.04901; age_rate 43 0.04707; age_rate 44 0.04514; age_rate 45 0.04321;
      age_rate 46 0.04128; age_rate 47 0.03935; age_rate 48 0.03743; age_rate 49 0.03551;
      age_rate 50 0.0336; age_rate 51 0.03169 ].

(** Property access [obj[age]] with a numeric key: the number is turned
    into its decimal string, so only an integer-valued number can name one
    of the integer keys. *)
Definition index_by_number {V : Type} (obj : gmap Z V) (age : Q) : option V :=
  let a := Qred age in
  if Pos.eqb (Qden a) 1 then obj !! Qnum a else None.

(** [ageGrowth(age, fallback)]: [AGE_GROWTH[age] ?? (age >= 52 ? fallback : 0.03)]. *)
Definition ageGrowth (age : Q) (fallback : Q) : Q :=
  match index_by_number AGE_GROWTH age with
  | Some r => r
  | None => if geb age 52 then fallback else 0.03
  end.

Definition discountRateAfterTaxForAge (age : Q) : Q :=
  if leb age 35 then 0.026
  else if leb age 54 then 0.024
  else 0.021.

(** ** Work-life expectancy *)

Record WorklifeRow := mkWL { wl_age : Z; wl_years : Q; wl_exit : Z }.

Definition WORKLIFE_TABLE : list WorklifeRow :=
  [ mkWL 25 34.87 60; mkWL 26 34.04 60; mkWL 27 33.20 60; mkWL 28 32.36 60;
    mkWL 29 31.51 61; mkWL 30 30.66 61; mkWL 31 29.81 61; mkWL 32 28.94 61;
    mkWL 33 28.08 61; mkWL 34 27.23 61; mkWL 35 26.37 61; mkWL 36 25.52 62;
    mkWL 37 24.67 62; mkWL 38 23.83 62; mkWL 39 22.98 62; mkWL 40 22.14 62;
    mkWL 41 21.30 62; mkWL 42 20.46 62; mkWL 43 19.64 63; mkWL 44 18.82 63;
    mkWL 45 18.01 63; mkWL 46 17.22 63; mkWL 47 16.42 63; mkWL 48 15.64 64;
    mkWL 49 14.87 64; mkWL 50 14.13 64; mkWL 51 13.39 64; mkWL 52 12.66 65;
    mkWL 53 11.93 65; mkWL 54 11.22 65; mkWL 55 10.53 66; mkWL 56 9.87 66;
    mkWL 57 9.21 66; mkWL 58 8.58 67; mkWL 59 7.95 67; mkWL 60 7.36 67;
    mkWL 61 6.81 68; mkWL 62 6.33 68; mkWL 63 5.90 69; mkWL 64 5.51 70;
    mkWL 65 5.17 70; mkWL 66 4.89 71; mkWL 67 4.65 72; mkWL 68 4.43 72;
    mkWL 69 4.21 73; mkWL 70 4.01 74 ].

Module Worklife.
Record t := mk { years : Z; exitAge : Z }.
End Worklife.

(** The clamped, rounded age the table is searched with. *)
Definition worklife_key (minAge maxAge : Z) (age : Q) : Z :=
  Z.max minAge (Z.min maxAge (Math_round age)).

(** [lookupWorklife(age)].  Reading a field of [undefined] throws, so the
    first row, the last row and the row [find] returns are all optional. *)
Definition lookupWorklife (age : Q) : option Worklife.t :=
  first ← head WORKLIFE_TABLE;
  final ← last WORKLIFE_TABLE;
  let a := worklife_key (wl_age first) (wl_age final) age in
  entry ← find (fun r => Z.eqb (wl_age r) a) WORKLIFE_TABLE;
  let roundedYears := Math_round (wl_years entry) in
  let exitAge := Math_round (age + inject_Z roundedYears) in
  Some (Worklife.mk roundedYears exitAge).

(** ** The component state *)

Inductive Mode := injury | wrongfulDeath.
Inductive UnemploymentTiming := before_medical | after_medical.

(** A [number | "auto"] setting. *)
Inductive Setting := auto | manual (v : Q).

(** The [useState] cells read by the computation. *)
Record Config := mkConfig {
  mode : Mode;
  ageAtStart : Q;
  years : Q;
  baseIncome : Q;
  taxRate : Setting;
  marital : Marital;
  child1Age : option Q;
  child2Age : option Q;
  manualConsumption : bool;
  consumptionPct : Q;
  useAgeSpecificGrowth : bool;
  earningsGrowthFixed : Q;
  retirementPct : Q;
  medicalBase : Q;
  medicalGrowth : Q;
  unemploymentFactor : Q;
  discountOverride : Setting;
  unemploymentTiming : UnemploymentTiming;
  offsetAnnual : Q;
  offsetYears : Q;
  offsetLumpSum : Q;
  useFirmWorklife : bool
}.

(** The object pushed onto [rows] each year. *)
Module YearRow.
Record t := mk {
  year : Z;
  age : Q;
  earnGrowth : Q;
  projectedIncome : Q;
  retirement : Q;
  incomePlusRet : Q;
  taxRate : Q;
  postTaxProjectedIncome : Q;
  consumptionRate : Q;
  consumptionAmt : Q;
  incomeLessConsumption : Q;
  healthContribution : Q;
  unemploymentAdjIncome : Q;
  postTaxAdjusted : Q;
  discounted : Q
}.
End YearRow.

(** The variables the year loop updates. *)
Module Vars.
Record t := mk { salary : Q; med : Q; pvSum : Q; rows : list YearRow.t }.
End Vars.

(** What [results] returns. *)
Module Results.
Record t := mk {
  pvSum : Q; pvOffset : Q; netPV : Q; effTax : Q; disc : Q;
  rows : list YearRow.t
}.
End Results.

(** ** The core computation *)

Section YearLoop.
Variable c : Config.
Variables effTax disc afterTaxAtStart : Q.

(** [yearConsumption] of year [t]. *)
Definition yearConsumption (t : Z) : Q :=
  match mode c with
  | wrongfulDeath =>
      let y := inject_Z t - 1 in
      let childUnder23Count :=
        getChildCountUnder23 [child1Age c; child2Age c] y in
      if manualConsumption c then consumptionPct c
      else interpolateConsumption (baseIncome c) (marital c)
             childUnder23Count CONSUMPTION_TABLE
  | injury => 0
  end.

(** [consumptionAmt], the same expression in both branches. *)
Definition consumptionAmt_of (rate : Q) : Q :=
  match mode c with
  | wrongfulDeath => afterTaxAtStart * rate
  | injury => 0
  end.

(** One pass through the body of the year loop, up to [rows.push]:
    the row of year [t] from the salary and medical benefit carried in. *)
Definition year_row (t : Z) (v : Vars.t) : YearRow.t :=
  let age := ageAtStart c + inject_Z t in
  let earnGrowth :=
    if useAgeSpecificGrowth c then ageGrowth age 0.03
    else earningsGrowthFixed c in
  let salary := Vars.salary v * (1 + earnGrowth) in
  let med := Vars.med v * (1 + medicalGrowth c) in
  let retirement := salary * retirementPct c in
  let incomePlusRet := salary + retirement in
  let rate := yearConsumption t in
  let '(unemploymentAdjIncome, postTaxBase, consumptionAmt,
        afterConsumption, subtotalBeforeDiscount) :=
    match unemploymentTiming c with
    | before_medical =>
        let unemploymentAdjIncome :=
          incomePlusRet * (1 - unemploymentFactor c) in
        let postTaxBase := unemploymentAdjIncome * (1 - effTax) in
        let consumptionAmt := consumptionAmt_of rate in
        let afterConsumption := postTaxBase - consumptionAmt in
        let subtotalBeforeDiscount := afterConsumption + med in
        (unemploymentAdjIncome, postTaxBase, consumptionAmt,
         afterConsumption, subtotalBeforeDiscount)
    | after_medical =>
        let postTaxBase := incomePlusRet * (1 - effTax) in
        let consumptionAmt := consumptionAmt_of rate in
        let afterConsumption := postTaxBase - consumptionAmt in
        let subtotal := afterConsumption + med in
        let unemploymentAdjIncome :=
          subtotal * (1 - unemploymentFactor c) in
        (unemploymentAdjIncome, postTaxBase, consumptionAmt,
         afterConsumption, unemploymentAdjIncome)
    end in
  let pv := subtotalBeforeDiscount / Math_pow (1 + disc) t in
  YearRow.mk t age earnGrowth salary retirement incomePlusRet effTax
    postTaxBase rate consumptionAmt afterConsumption med
    unemploymentAdjIncome subtotalBeforeDiscount pv.

(** The whole body: [salary] and [med] are the grown values the row
    records, [pvSum += pv], [rows.push(row)]. *)
Definition year_body (t : Z) (v : Vars.t) : Vars.t :=
  let r := year_row t v in
  Vars.mk (YearRow.projectedIncome r) (YearRow.healthContribution r)
    (Vars.pvSum v + YearRow.discounted r) (Vars.rows v ++ [r]).

(** [n] further iterations of the year loop, the next one being year [t]. *)
Fixpoint year_loop (n : nat) (t : Z) (v : Vars.t) : Vars.t :=
  match n with
  | O => v
  | S n' => year_loop n' (t + 1) (year_body t v)
  end.

(** [n] further iterations of
    [for (t = 1; t <= offsetYears; t++) pvOffset += offsetAnnual / Math.pow(1 + disc, t)]. *)
Fixpoint offset_loop (n : nat) (t : Z) (pvOffset : Q) : Q :=
  match n with
  | O => pvOffset
  | S n' =>
      offset_loop n' (t + 1) (pvOffset + offsetAnnual c / Math_pow (1 + disc) t)
  end.
End YearLoop.

(** [effTax] and [disc], resolved once. *)
Definition resolve_effTax (c : Config) : Q :=
  match taxRate c with
  | auto => interpolateTaxRate (baseIncome c) NY_EFFECTIVE_TAX_TABLE
  | manual v => v
  end.

Definition resolve_disc (c : Config) : Q :=
  match discountOverride c with
  | auto => discountRateAfterTaxForAge (ageAtStart c)
  | manual v => v
  end.

(** The [useMemo] callback computing [results]; [calcYears] is the horizon
    the component derived. *)
Definition results (c : Config) (calcYears : Q) : Results.t :=
  let effTax := resolve_effTax c in
  let disc := resolve_disc c in
  let afterTaxAtStart := baseIncome c * (1 - effTax) in
  let v :=
    year_loop c effTax disc afterTaxAtStart (loop_count calcYears) 1
      (Vars.mk (baseIncome c) (medicalBase c) 0 []) in
  let pvOffset :=
    (if gtb (offsetAnnual c) 0 && gtb (offsetYears c) 0
     then offset_loop c disc (loop_count (offsetYears c)) 1 0
     else 0) + offsetLumpSum c in
  let netPV := Math_max 0 (Vars.pvSum v - pvOffset) in
  Results.mk (Vars.pvSum v) pvOffset netPV effTax disc (Vars.rows v).

(** [calcYears = useFirmWorklife ? autoWL.years : years]. *)
Definition calcYears (c : Config) (autoWL : Worklife.t) : Q :=
  if useFirmWorklife c then inject_Z (Worklife.years autoWL) else years c.

(** One render of the component: [autoWL] is computed whatever the toggle
    says, then the horizon, then [results]. *)
Definition VCFEstimator (c : Config) : option Results.t :=
  autoWL ← lookupWorklife (ageAtStart c);
  Some (results c (calcYears c autoWL)).


(** [expectedExitAge = useFirmWorklife ? autoWL.exitAge : (ageAtStart + years)]. *)
Definition expectedExitAge (c : Config) (autoWL : Worklife.t) : Q :=
  if useFirmWorklife c then inject_Z (Worklife.exitAge autoWL)
  else ageAtStart c + years c.

(** ** State setters and the handlers built on them *)

(** [setTaxRate(x)]: every other cell keeps its value. *)
Definition setTaxRate (x : Setting) (c : Config) : Config :=
  mkConfig (mode c) (ageAtStart c) (years c) (baseIncome c) x (marital c)
    (child1Age c) (child2Age c) (manualConsumption c) (consumptionPct c)
    (useAgeSpecificGrowth c) (earningsGrowthFixed c) (retirementPct c)
    (medicalBase c) (medicalGrowth c) (unemploymentFactor c)
    (discountOverride c) (unemploymentTiming c) (offsetAnnual c)
    (offsetYears c) (offsetLumpSum c) (useFirmWorklife c).

(** [setDiscountOverride(x)]. *)
Definition setDiscountOverride (x : Setting) (c : Config) : Config :=
  mkConfig (mode c) (ageAtStart c) (years c) (baseIncome c) (taxRate c)
    (marital c) (child1Age c) (child2Age c) (manualConsumption c)
    (consumptionPct c) (useAgeSpecificGrowth c) (earningsGrowthFixed c)
    (retirementPct c) (medicalBase c) (medicalGrowth c)
    (unemploymentFactor c) x (unemploymentTiming c) (offsetAnnual c)
    (offsetYears c) (offsetLumpSum c) (useFirmWorklife c).


(** The Manual switch of the tax rate:
    [(v) => setTaxRate(v ? interpolateTaxRate(baseIncome) : "auto")]. *)
Definition onTaxManualChange (v : bool) (c : Config) : Config :=
  setTaxRate
    (if v then manual (interpolateTaxRate (baseIncome c) NY_EFFECTIVE_TAX_TABLE)
     else auto) c.

(** The Manual switch of the discount rate:
    [(v) => setDiscountOverride(v ? discountRateAfterTaxForAge(ageAtStart) : "auto")]. *)
Definition onDiscountManualChange (v : bool) (c : Config) : Config :=
  setDiscountOverride
    (if v then manual (discountRateAfterTaxForAge (ageAtStart c)) else auto) c.

(** ** Medical growth mode *)

Inductive MedicalGrowthMode := cpi | cpi_medical | custom.

(** The two cells the medical growth selector owns; [medicalGrowthRate] is
    the [medicalGrowth] cell. *)
Record MedicalGrowthState := mkMedicalGrowth {
  medicalGrowthMode : MedicalGrowthMode;
  medicalGrowthRate : Q
}.

(** [onMedicalGrowthModeChange(v)]: the mode is stored; [cpi] and
    [cpi_medical] also store their rate, [custom] leaves the rate alone. *)
Definition onMedicalGrowthModeChange (v : MedicalGrowthMode)
    (s : MedicalGrowthState) : MedicalGrowthState :=
  match v with
  | cpi => mkMedicalGrowth v 0.023
  | cpi_medical => mkMedicalGrowth v 0.0304
  | custom => mkMedicalGrowth v (medicalGrowthRate s)
  end.

(** What the user can do to these two cells: pick a mode in the selector,
    or type a rate into the input, which is rendered only while the mode is
    [custom] ([medicalGrowthMode === "custom" && <Input ... />]). *)
Inductive MedicalGrowthEvent :=
| SelectMode (v : MedicalGrowthMode)
| TypeRate (x : Q).

Definition medical_growth_step (e : MedicalGrowthEvent)
    (s : MedicalGrowthState) : option MedicalGrowthState :=
  match e with
  | SelectMode v => Some (onMedicalGrowthModeChange v s)
  | TypeRate x =>
      match medicalGrowthMode s with
      | custom => Some (mkMedicalGrowth custom x)
      | _ => None
      end
  end.

(** The cells as [useState] initialises them. *)
Definition initial_medical_growth : MedicalGrowthState :=
  mkMedicalGrowth cpi 0.023.

(** The states a sequence of those events can reach. *)
Inductive medical_growth_reachable : MedicalGrowthState -> Prop :=
| reach_initial : medical_growth_reachable initial_medical_growth
| reach_step e s s' :
    medical_growth_reachable s -> medical_growth_step e s = Some s' ->
    medical_growth_reachable s'.


(** * Vocabulary of the statements *)

(** ** Bracket tables *)

Section Brackets.
Context {A B : Type} (key : A -> Q) (pick : A -> B) (col : B -> Q).

(** Thresholds strictly ascending, the invariant of a bracket table. *)
Definition ascending (table : list A) : Prop :=
  StronglySorted (fun r r' => key r < key r') table.

(** [r] carries the highest threshold of [table] that is at most [q]. *)
Definition highest_below (q : Q) (table : list A) (r : A) : Prop :=
  In r table /\ key r <= q /\
  forall r', In r' table -> key r' <= q -> key r' <= key r.

(** What a bracket lookup [lookup] owes its callers on [table] at [q]:
    [val r] is the value the lookup associates with row [r]. *)
Definition bracket_contract (val : A -> Q) (lookup : Q -> list A -> Q)
    (q : Q) (table : list A) : Prop :=
  lookup q [] = 0 /\
  (forall r0 rest, table = r0 :: rest -> q < key r0 ->
     lookup q table = val r0) /\
  (forall r0 rest, table = r0 :: rest -> key r0 <= q ->
     exists r, highest_below q table r) /\
  (forall r, highest_below q table r -> lookup q table = val r) /\
  (table <> [] -> In (lookup q table) (map val table)).

(** Both lookups have this shape: guard, scan from the first row, then
    read [col] off whatever the scan kept. *)
Definition guarded_scan (q : Q) (table : list A) : Q :=
  match table with
  | [] => 0
  | r0 :: _ => col (bracket_loop key pick q (pick r0) table)
  end.
End Brackets.

(** Rates that never fall along the table, starting from [cur]. *)
Fixpoint rates_rise (cur : Q) (table : list TaxRow) : Prop :=
  match table with
  | [] => True
  | r :: rest => cur <= rate r /\ rates_rise (rate r) rest
  end.

(** ** The year loop and the offsets *)

(** The rows [n] iterations of the year loop push, oldest first, when the
    next year is [t] and the variables are [v]. *)
Definition loop_rows (c : Config) (effTax disc afterTaxAtStart : Q)
    (n : nat) (t : Z) (v : Vars.t) : list YearRow.t :=
  (fun k =>
     year_row c effTax disc afterTaxAtStart (t + Z.of_nat k)
       (year_loop c effTax disc afterTaxAtStart k t v)) <$> seq 0 n.

(** The sum over t = 1..n of a / (1 + d)^t, as the specification writes the
    present value of a periodic offset. *)
Fixpoint periodic_offset_sum (a d : Q) (n : nat) : Q :=
  match n with
  | O => 0
  | S n' => periodic_offset_sum a d n' + a / Math_pow (1 + d) (Z.of_nat n)
  end.

(** The sum of a column of numbers. *)
Definition sumQ (l : list Q) : Q := fold_right Qplus 0 l.

(** The rounded years of the work-life row for the integer age [a], 0 if
    the table has no such row. *)
Definition worklife_years_at (a : Z) : Z :=
  match find (fun r => Z.eqb (wl_age r) a) WORKLIFE_TABLE with
  | Some entry => Math_round (wl_years entry)
  | None => 0
  end.

(** The growth rate year [t] applies to the salary. *)
Definition growth_of_year (c : Config) (t : Z) : Q :=
  if useAgeSpecificGrowth c then ageGrowth (ageAtStart c + inject_Z t) 0.03
  else earningsGrowthFixed c.

(** The variables of [results] after [i] years. *)
Definition results_vars (c : Config) (i : nat) : Vars.t :=
  year_loop c (resolve_effTax c) (resolve_disc c)
    (baseIncome c * (1 - resolve_effTax c)) i 1
    (Vars.mk (baseIncome c) (medicalBase c) 0 []).

(** The row of [results] at index [i], when there is one. *)
Definition results_row (c : Config) (i : nat) : YearRow.t :=
  year_row c (resolve_effTax c) (resolve_disc c)
    (baseIncome c * (1 - resolve_effTax c)) (1 + Z.of_nat i)
    (results_vars c i).

(** ** Component states used as examples *)

(** The initial values of the [useState] cells. *)
Definition initial_config : Config :=
  {| mode := wrongfulDeath; ageAtStart := 55; years := 12;
     baseIncome := 100000; taxRate := auto; marital := married;
     child1Age := None; child2Age := None;
     manualConsumption := false; consumptionPct := 0.105;
     useAgeSpecificGrowth := true; earningsGrowthFixed := 0.03;
     retirementPct := 0.04; medicalBase := 7280; medicalGrowth := 0.023;
     unemploymentFactor := 0.06; discountOverride := auto;
     unemploymentTiming := before_medical;
     offsetAnnual := 0; offsetYears := 0; offsetLumpSum := 0;
     useFirmWorklife := true |}.


(** The initial state switched to the legacy ordering. *)
Definition legacy_config : Config :=
  {| mode := wrongfulDeath; ageAtStart := 55; years := 12;
     baseIncome := 100000; taxRate := auto; marital := married;
     child1Age := None; child2Age := None;
     manualConsumption := false; consumptionPct := 0.105;
     useAgeSpecificGrowth := true; earningsGrowthFixed := 0.03;
     retirementPct := 0.04; medicalBase := 7280; medicalGrowth := 0.023;
     unemploymentFactor := 0.06; discountOverride := auto;
     unemploymentTiming := after_medical;
     offsetAnnual := 0; offsetYears := 0; offsetLumpSum := 0;
     useFirmWorklife := true |}.

(** The initial state in injury mode. *)
Definition injury_config : Config :=
  {| mode := injury; ageAtStart := 55; years := 12;
     baseIncome := 100000; taxRate := auto; marital := married;
     child1Age := None; child2Age := None;
     manualConsumption := false; consumptionPct := 0.105;
     useAgeSpecificGrowth := true; earningsGrowthFixed := 0.03;
     retirementPct := 0.04; medicalBase := 7280; medicalGrowth := 0.023;
     unemploymentFactor := 0.06; discountOverride := auto;
     unemploymentTiming := before_medical;
     offsetAnnual := 0; offsetYears := 0; offsetLumpSum := 0;
     useFirmWorklife := true |}.

(** The initial state with 50000 a year for 3 years and a lump sum of ten
    million set against it. *)
Definition large_offset_config : Config :=
  {| mode := wrongfulDeath; ageAtStart := 55; years := 12;
     baseIncome := 100000; taxRate := auto; marital := married;
     child1Age := None; child2Age := None;
     manualConsumption := false; consumptionPct := 0.105;
     useAgeSpecificGrowth := true; earningsGrowthFixed := 0.03;
     retirementPct := 0.04; medicalBase := 7280; medicalGrowth := 0.023;
     unemploymentFactor := 0.06; discountOverride := auto;
     unemploymentTiming := before_medical;
     offsetAnnual := 50000; offsetYears := 3; offsetLumpSum := 10000000;
     useFirmWorklife := true |}.

(** The initial state with a negative annual offset over ten years. *)
Definition negative_offset_config : Config :=
  {| mode := wrongfulDeath; ageAtStart := 55; years := 12;
     baseIncome := 100000; taxRate := auto; marital := married;
     child1Age := None; child2Age := None;
     manualConsumption := false; consumptionPct := 0.105;
     useAgeSpecificGrowth := true; earningsGrowthFixed := 0.03;
     retirementPct := 0.04; medicalBase := 7280; medicalGrowth := 0.023;
     unemploymentFactor := 0.06; discountOverride := auto;
     unemploymentTiming := before_medical;
     offsetAnnual := -5000; offsetYears := 10; offsetLumpSum := 1000;
     useFirmWorklife := true |}.

(** Wrongful death at 55, married, one dependent aged 10, base income
    100000, horizon from the firm table, before-medical ordering, automatic
    tax, discount and consumption; everything else as initially set. *)
Definition scenario_config : Config :=
  {| mode := wrongfulDeath; ageAtStart := 55; years := 12;
     baseIncome := 100000; taxRate := auto; marital := married;
     child1Age := Some 10; child2Age := None;
     manualConsumption := false; consumptionPct := 0.105;
     useAgeSpecificGrowth := true; earningsGrowthFixed := 0.03;
     retirementPct := 0.04; medicalBase := 7280; medicalGrowth := 0.023;
     unemploymentFactor := 0.06; discountOverride := auto;
     unemploymentTiming := before_medical;
     offsetAnnual := 0; offsetYears := 0; offsetLumpSum := 0;
     useFirmWorklife := true |}.
(** The initial state with the firm table switched off and no years. *)
Definition no_years_config : Config :=
  {| mode := wrongfulDeath; ageAtStart := 55; years := 0;
     baseIncome := 100000; taxRate := auto; marital := married;
     child1Age := None; child2Age := None;
     manualConsumption := false; consumptionPct := 0.105;
     useAgeSpecificGrowth := true; earningsGrowthFixed := 0.03;
     retirementPct := 0.04; medicalBase := 7280; medicalGrowth := 0.023;
     unemploymentFactor := 0.06; discountOverride := auto;
     unemploymentTiming := before_medical;
     offsetAnnual := 0; offsetYears := 0; offsetLumpSum := 0;
     useFirmWorklife := false |}.


(** The initial state with children aged 21 and 19. *)
Definition two_children_config : Config :=
  {| mode := wrongfulDeath; ageAtStart := 55; years := 12;
     baseIncome := 100000; taxRate := auto; marital := married;
     child1Age := Some 21; child2Age := Some 19;
     manualConsumption := false; consumptionPct := 0.105;
     useAgeSpecificGrowth := true; earningsGrowthFixed := 0.03;
     retirementPct := 0.04; medicalBase := 7280; medicalGrowth := 0.023;
     unemploymentFactor := 0.06; discountOverride := auto;
     unemploymentTiming := before_medical;
     offsetAnnual := 0; offsetYears := 0; offsetLumpSum := 0;
     useFirmWorklife := true |}.

(** * Properties *)

(** ** Comparisons *)

Lemma geb_true (x y : Q) : geb x y = true <-> y <= x.
Proof. unfold geb. apply Qle_bool_iff. Qed.

Lemma geb_false (x y : Q) : geb x y = false <-> x < y.
Proof.
  unfold geb. split; intros H.
  - apply Qnot_le_lt. intros Hle. apply Qle_bool_iff in Hle. congruence.
  - destruct (Qle_bool y x) eqn:E; [|reflexivity].
    apply Qle_bool_iff in E. exfalso. exact (Qlt_not_le _ _ H E).
Qed.

Lemma gtb_true (x y : Q) : gtb x y = true <-> y < x.
Proof.
  unfold gtb. rewrite negb_true_iff. apply (geb_false y x).
Qed.

Lemma gtb_false (x y : Q) : gtb x y = false <-> x <= y.
Proof.
  unfold gtb. rewrite negb_false_iff. apply Qle_bool_iff.
Qed.

Lemma leb_true (x y : Q) : leb x y = true <-> x <= y.
Proof. unfold leb. apply Qle_bool_iff. Qed.

(** ** Bracket lookup *)

Section BracketLoop.
Context {A B : Type} (key : A -> Q) (pick : A -> B).

Lemma ascending_inv r rest :
  ascending key (r :: rest) ->
  ascending key rest /\ forall r', In r' rest -> key r < key r'.
Proof.
  intros H. inversion H as [|? ? Hs Hall]; subst. split; [exact Hs|].
  intros r' Hin. rewrite Forall_forall in Hall. apply Hall.
  apply list_elem_of_In. exact Hin.
Qed.

(** Two rows of an ascending key table with the same threshold are one row. *)
Lemma ascending_key_inj table r r' :
  ascending key table -> In r table -> In r' table -> key r == key r' -> r = r'.
Proof.
  induction table as [|a rest IH]; intros Hasc Hr Hr' Heq; [destruct Hr|].
  apply ascending_inv in Hasc as [Hrest Hlt].
  destruct Hr as [->|Hr], Hr' as [->|Hr']; auto.
  - exfalso. specialize (Hlt _ Hr'). rewrite Heq in Hlt.
    exact (Qlt_irrefl _ Hlt).
  - exfalso. specialize (Hlt _ Hr). rewrite Heq in Hlt.
    exact (Qlt_irrefl _ Hlt).
Qed.

(** The scan either stops before the first row, keeping what it was
    given, or it ends on the row of the highest threshold below [q]. *)
Lemma bracket_loop_spec q table : forall cur,
  ascending key table ->
  ((forall r', In r' table -> q < key r') /\
   bracket_loop key pick q cur table = cur) \/
  (exists r, highest_below key q table r /\
             bracket_loop key pick q cur table = pick r).
Proof.
  induction table as [|r rest IH]; intros cur Hasc; simpl.
  - left. split; [intros ? []|reflexivity].
  - apply ascending_inv in Hasc as [Hrest Hlt].
    destruct (geb q (key r)) eqn:E.
    + apply geb_true in E. right.
      destruct (IH (pick r) Hrest) as [[Hall Hres]|[r2 [[Hin [Hle Hmax]] Hres]]].
      * exists r. split; [|exact Hres].
        split; [now left|]. split; [exact E|].
        intros r' [->|Hin] Hr'; [apply Qle_refl|].
        exfalso. exact (Qlt_not_le _ _ (Hall _ Hin) Hr').
      * exists r2. split; [|exact Hres].
        split; [now right|]. split; [exact Hle|].
        intros r' [->|Hin'] Hr'; [|now apply Hmax].
        apply Qlt_le_weak. now apply Hlt.
    + apply geb_false in E. left. split; [|reflexivity].
      intros r' [->|Hin]; [exact E|].
      eapply Qlt_trans; [exact E|now apply Hlt].
Qed.

(** On a table that starts with [r0], scanned from [pick r0]. *)
Lemma bracket_loop_below q r0 rest :
  q < key r0 -> bracket_loop key pick q (pick r0) (r0 :: rest) = pick r0.
Proof. intros H. simpl. apply geb_false in H. now rewrite H. Qed.

Lemma bracket_loop_highest q r0 rest r :
  ascending key (r0 :: rest) -> highest_below key q (r0 :: rest) r ->
  bracket_loop key pick q (pick r0) (r0 :: rest) = pick r.
Proof.
  intros Hasc [Hin [Hle Hmax]].
  destruct (bracket_loop_spec q (r0 :: rest) (pick r0) Hasc)
    as [[Hall _]|[r2 [[Hin2 [Hle2 Hmax2]] Hres]]].
  - exfalso. exact (Qlt_not_le _ _ (Hall _ Hin) Hle).
  - rewrite Hres. f_equal.
    apply (ascending_key_inj (r0 :: rest)); auto.
    apply Qle_antisym; auto.
Qed.

(** A row whose threshold the query has reached is taken and the scan
    moves on. *)
Lemma bracket_loop_passes q cur r rest :
  key r <= q ->
  bracket_loop key pick q cur (r :: rest) =
  bracket_loop key pick q (pick r) rest.
Proof. intros H. simpl. apply geb_true in H. now rewrite H. Qed.

(** The scan never leaves the values the table holds. *)
Lemma bracket_loop_in q table : forall cur,
  bracket_loop key pick q cur table = cur \/
  In (bracket_loop key pick q cur table) (map pick table).
Proof.
  induction table as [|r rest IH]; intros cur; simpl; [now left|].
  destruct (geb q (key r)); [|now left].
  right. destruct (IH (pick r)) as [->|H]; [now left|now right].
Qed.
End BracketLoop.

Section BracketContract.
Context {A B : Type} (key : A -> Q) (pick : A -> B) (col : B -> Q).

Lemma guarded_scan_contract q table :
  ascending key table ->
  bracket_contract key (fun r => col (pick r))
    (guarded_scan key pick col) q table.
Proof.
  intros Hasc. unfold bracket_contract. split; [reflexivity|].
  split; [|split; [|split]].
  - intros r0 rest -> Hlt. unfold guarded_scan.
    now rewrite bracket_loop_below.
  - intros r0 rest -> Hle.
    destruct (bracket_loop_spec key pick q (r0 :: rest) (pick r0) Hasc)
      as [[Hall _]|[r [Hr _]]]; [|now exists r].
    exfalso. exact (Qlt_not_le _ _ (Hall r0 (or_introl eq_refl)) Hle).
  - intros r Hr. destruct table as [|r0 rest]; [destruct Hr as [[] _]|].
    unfold guarded_scan. now rewrite (bracket_loop_highest key pick q r0 rest r).
  - intros Hne. destruct table as [|r0 rest]; [congruence|].
    unfold guarded_scan.
    destruct (bracket_loop_in key pick q (r0 :: rest) (pick r0)) as [->|Hin].
    + now left.
    + rewrite <- (map_map pick col). now apply in_map.
Qed.
End BracketContract.

(** C7. Bracket lookup, for tax rates and for consumption rates alike: on an
    empty table it returns 0; on a table with ascending thresholds a query
    below the first threshold gets the first row's value, any other query
    gets the value of the row with the highest threshold that is at most the
    query, and the result is always a value stored in the table, never a
    blend of two rows. *)
Theorem bracket_lookup_contract (q : Q) (m : Marital) (n : Q)
    (tax : list TaxRow) (cons : list ConsumptionRow) :
  ascending income tax -> ascending c_income cons ->
  bracket_contract income rate interpolateTaxRate q tax /\
  bracket_contract c_income (consumption_col m n)
    (fun q' t => interpolateConsumption q' m n t) q cons.
Proof.
  intros Htax Hcons. split.
  - exact (guarded_scan_contract income rate (fun x => x) q tax Htax).
  - exact (guarded_scan_contract c_income (fun r => r) (consumption_col m n)
             q cons Hcons).
Qed.

(** The scan does not check the ordering it assumes: on a table that is not
    ascending it stops at the first threshold above the query, here before
    the 20 row. *)
Example bracket_scan_stops_at_first_miss :
  interpolateTaxRate 25 [mkTaxRow 10 0.1; mkTaxRow 30 0.3; mkTaxRow 20 0.2]
  = 0.1.
Proof. reflexivity. Qed.

(** Decision of [ascending] on a concrete table. *)
Ltac ascending_table :=
  unfold ascending;
  repeat (apply SSorted_cons;
          [|repeat (constructor; [reflexivity|]); constructor]);
  apply SSorted_nil.

Lemma NY_EFFECTIVE_TAX_TABLE_ascending : ascending income NY_EFFECTIVE_TAX_TABLE.
Proof. unfold NY_EFFECTIVE_TAX_TABLE. ascending_table. Qed.

Lemma CONSUMPTION_TABLE_ascending : ascending c_income CONSUMPTION_TABLE.
Proof. unfold CONSUMPTION_TABLE. ascending_table. Qed.

(** The shipped tables at 95000: the 90000 rows answer. *)
Lemma bracket_lookup_contract_witness :
  interpolateTaxRate 95000 NY_EFFECTIVE_TAX_TABLE = 0.1864 /\
  interpolateConsumption 95000 married 1 CONSUMPTION_TABLE = 0.110.
Proof.
  destruct (bracket_lookup_contract 95000 married 1
              NY_EFFECTIVE_TAX_TABLE CONSUMPTION_TABLE)
    as [(_ & _ & _ & Htax & _) (_ & _ & _ & Hcons & _)].
  - exact NY_EFFECTIVE_TAX_TABLE_ascending.
  - exact CONSUMPTION_TABLE_ascending.
  - split.
    + apply (Htax (mkTaxRow 90000 0.1864)).
      split; [simpl; tauto|]. split; [discriminate|].
      intros r' Hin Hle. simpl in Hin.
      repeat (destruct Hin as [<-|Hin]; [try discriminate; exfalso; apply Hle; reflexivity|]).
      destruct Hin.
    + apply (Hcons (mkConsRow 90000 0.620 0.160 0.164 0.110 0.083)).
      split; [simpl; tauto|]. split; [discriminate|].
      intros r' Hin Hle. simpl in Hin.
      repeat (destruct Hin as [<-|Hin]; [try discriminate; exfalso; apply Hle; reflexivity|]).
      destruct Hin.
Defined.

(** ** Monotonicity of the shipped tax table *)

Lemma tax_scan_ge_cur q table : forall cur,
  rates_rise cur table -> cur <= bracket_loop income rate q cur table.
Proof.
  induction table as [|r rest IH]; intros cur Hrise; simpl.
  - apply Qle_refl.
  - destruct Hrise as [Hcur Hrest].
    destruct (geb q (income r)); [|apply Qle_refl].
    eapply Qle_trans; [exact Hcur|now apply IH].
Qed.

Lemma tax_scan_mono q1 q2 table : forall cur,
  rates_rise cur table -> q1 <= q2 ->
  bracket_loop income rate q1 cur table <= bracket_loop income rate q2 cur table.
Proof.
  induction table as [|r rest IH]; intros cur Hrise Hq; simpl.
  - apply Qle_refl.
  - destruct Hrise as [Hcur Hrest].
    destruct (geb q1 (income r)) eqn:E1.
    + apply geb_true in E1.
      assert (E2 : geb q2 (income r) = true)
        by (apply geb_true; eapply Qle_trans; eauto).
      rewrite E2. now apply IH.
    + destruct (geb q2 (income r)); [|apply Qle_refl].
      eapply Qle_trans; [exact Hcur|now apply tax_scan_ge_cur].
Qed.

(** From 35000 on, the scan of the shipped table has passed its first five
    rows and continues from the 35000 rate over the remaining fourteen. *)
Lemma tax_scan_from_35000 q :
  35000 <= q ->
  interpolateTaxRate q NY_EFFECTIVE_TAX_TABLE =
  bracket_loop income rate q 0.1293 (skipn 5 NY_EFFECTIVE_TAX_TABLE).
Proof.
  intros Hq. unfold interpolateTaxRate, NY_EFFECTIVE_TAX_TABLE.
  do 5 (rewrite (bracket_loop_passes income rate);
        [|eapply Qle_trans; [|exact Hq]; discriminate]).
  reflexivity.
Qed.

(** C6 (amended). On the shipped table the looked-up tax rate is
    non-decreasing from the 35000 bracket upwards: for all incomes
    35000 <= i1 < i2, tax(i2) >= tax(i1). *)
Theorem shipped_tax_nondecreasing_from_35000 (i1 i2 : Q) :
  35000 <= i1 -> i1 < i2 ->
  interpolateTaxRate i1 NY_EFFECTIVE_TAX_TABLE <=
  interpolateTaxRate i2 NY_EFFECTIVE_TAX_TABLE.
Proof.
  intros H1 H12.
  assert (H2 : 35000 <= i2)
    by (apply Qlt_le_weak; eapply Qle_lt_trans; eauto).
  rewrite !tax_scan_from_35000 by assumption.
  apply tax_scan_mono; [|now apply Qlt_le_weak].
  simpl. repeat (split; [discriminate|]). exact I.
Qed.

Lemma shipped_tax_nondecreasing_from_35000_witness :
  interpolateTaxRate 90000 NY_EFFECTIVE_TAX_TABLE <=
  interpolateTaxRate 100000 NY_EFFECTIVE_TAX_TABLE.
Proof.
  apply (shipped_tax_nondecreasing_from_35000 90000 100000).
  - discriminate.
  - reflexivity.
Defined.

(** C6, as stated, fails on the shipped table: the rate falls from the
    10000 bracket to the 20000 bracket. *)
Lemma shipped_tax_falls_10000_20000 :
  10000 < 20000 /\
  interpolateTaxRate 20000 NY_EFFECTIVE_TAX_TABLE <
  interpolateTaxRate 10000 NY_EFFECTIVE_TAX_TABLE.
Proof. split; reflexivity. Qed.

(** ** Age-indexed growth *)

Lemma Qred_inject_Z (k : Z) : Qred (inject_Z k) = inject_Z k.
Proof.
  apply Qred_identity. simpl. apply Z.gcd_1_r.
Qed.

(** An integer-valued number reads the entry of that integer. *)
Lemma index_by_number_int {V : Type} (obj : gmap Z V) (age : Q) (k : Z) :
  age == inject_Z k -> index_by_number obj age = obj !! k.
Proof.
  intros H. unfold index_by_number.
  rewrite (Qred_complete _ _ H), Qred_inject_Z. reflexivity.
Qed.

(** A number that names no entry reads [undefined]. *)
Lemma index_by_number_unmapped {V : Type} (obj : gmap Z V) (age : Q) :
  (forall k, age == inject_Z k -> obj !! k = None) ->
  index_by_number obj age = None.
Proof.
  intros H. unfold index_by_number.
  destruct (Pos.eqb (Qden (Qred age)) 1) eqn:E; [|reflexivity].
  apply H. apply Pos.eqb_eq in E.
  rewrite <- (Qred_correct age) at 1.
  destruct (Qred age) as [num den]. simpl in E. subst den. reflexivity.
Qed.

(** The keys of [AGE_GROWTH] are exactly the ages 18 to 51. *)
Lemma AGE_GROWTH_keys (k : Z) :
  is_Some (AGE_GROWTH !! k) <-> (18 <= k <= 51)%Z.
Proof.
  split.
  - intros [r Hr]. unfold AGE_GROWTH in Hr.
    apply elem_of_list_to_map_2 in Hr. unfold age_rate in Hr.
    repeat (apply elem_of_cons in Hr as [Hr|Hr]; [injection Hr; lia|]).
    inversion Hr.
  - intros Hk.
    assert (Hn : exists n : nat, k = (18 + Z.of_nat n)%Z /\ (n < 34)%nat).
    { exists (Z.to_nat (k - 18)). lia. }
    destruct Hn as (n & -> & Hn).
    do 34 (destruct n as [|n]; [eexists; vm_compute; reflexivity|]).
    lia.
Qed.

(** C9. [ageGrowth] returns the tabulated rate for every age in the table
    (the integers 18 to 51); for an age the table does not hold it returns
    the fallback passed in when the age is at least 52, and the fixed 3%
    when the age is below 52, whatever fallback was passed. *)
Theorem ageGrowth_contract (age fallback : Q) :
  (forall k, is_Some (AGE_GROWTH !! k) <-> (18 <= k <= 51)%Z) /\
  (forall k r, age == inject_Z k -> AGE_GROWTH !! k = Some r ->
     ageGrowth age fallback = r) /\
  ((forall k, age == inject_Z k -> AGE_GROWTH !! k = None) ->
     (52 <= age -> ageGrowth age fallback = fallback) /\
     (age < 52 -> ageGrowth age fallback = 0.03)).
Proof.
  split; [exact AGE_GROWTH_keys|]. split.
  - intros k r Hk Hr. unfold ageGrowth.
    now rewrite (index_by_number_int _ _ _ Hk), Hr.
  - intros Hun. unfold ageGrowth.
    rewrite (index_by_number_unmapped _ _ Hun). split; intros Hage.
    + apply geb_true in Hage. now rewrite Hage.
    + apply geb_false in Hage. now rewrite Hage.
Qed.

(** An integer-valued number equals one integer only. *)
Lemma inject_Z_eq (a k : Z) : inject_Z a == inject_Z k -> a = k.
Proof. unfold Qeq. simpl. lia. Qed.

Lemma ageGrowth_contract_witness :
  ageGrowth 18 0.05 = 0.09523 /\
  ageGrowth 60 0.05 = 0.05 /\
  ageGrowth 10 0.05 = 0.03.
Proof.
  split; [|split].
  - destruct (ageGrowth_contract 18 0.05) as (_ & Htab & _).
    apply (Htab 18%Z); reflexivity.
  - destruct (ageGrowth_contract 60 0.05) as (_ & _ & Hun).
    apply Hun; [|discriminate].
    intros k Hk. apply (inject_Z_eq 60) in Hk. subst k. reflexivity.
  - destruct (ageGrowth_contract 10 0.05) as (_ & _ & Hun).
    apply Hun; [|reflexivity].
    intros k Hk. apply (inject_Z_eq 10) in Hk. subst k. reflexivity.
Defined.

(** ** Work-life lookup *)

Lemma Math_round_mono (x y : Q) : x <= y -> (Math_round x <= Math_round y)%Z.
Proof.
  intros H. unfold Math_round. apply Qfloor_resp_le.
  apply Qplus_le_compat; [exact H|apply Qle_refl].
Qed.

Lemma Math_round_comp (x y : Q) : x == y -> Math_round x = Math_round y.
Proof. intros H. unfold Math_round. now rewrite H. Qed.

(** Clamping into the real interval [25, 70] and rounding give the same
    integer as rounding first and clamping to the integers 25..70 next,
    which is the order the code uses. *)
Lemma clamp_round_commute (age : Q) :
  Math_round (Qmax 25 (Qmin 70 age)) = worklife_key 25 70 age.
Proof.
  unfold worklife_key.
  assert (R25 : Math_round 25 = 25%Z) by reflexivity.
  assert (R70 : Math_round 70 = 70%Z) by reflexivity.
  destruct (Qlt_le_dec age 25) as [Hlo|Hlo];
    [|destruct (Qlt_le_dec 70 age) as [Hhi|Hhi]].
  - apply Qlt_le_weak in Hlo.
    assert (H70 : age <= 70) by (eapply Qle_trans; [exact Hlo|discriminate]).
    rewrite (Math_round_comp (Qmax 25 (Qmin 70 age)) 25).
    + pose proof (Math_round_mono _ _ Hlo). lia.
    + rewrite (Q.min_r 70 age H70). now apply Q.max_l.
  - apply Qlt_le_weak in Hhi.
    assert (H25 : 25 <= 70) by discriminate.
    rewrite (Math_round_comp (Qmax 25 (Qmin 70 age)) 70).
    + pose proof (Math_round_mono _ _ Hhi). lia.
    + rewrite (Q.min_l 70 age Hhi). now apply Q.max_r.
  - rewrite (Math_round_comp (Qmax 25 (Qmin 70 age)) age).
    + pose proof (Math_round_mono _ _ Hlo).
      pose proof (Math_round_mono _ _ Hhi). lia.
    + rewrite (Q.min_r 70 age Hhi). now apply Q.max_r.
Qed.

Lemma worklife_key_range (age : Q) : (25 <= worklife_key 25 70 age <= 70)%Z.
Proof. unfold worklife_key. lia. Qed.

(** The table holds one row for each integer age from 25 to 70. *)
Lemma WORKLIFE_TABLE_find (a : Z) :
  (25 <= a <= 70)%Z ->
  exists entry,
    find (fun r => Z.eqb (wl_age r) a) WORKLIFE_TABLE = Some entry /\
    wl_age entry = a.
Proof.
  intros Ha.
  assert (Hn : exists n : nat, a = (25 + Z.of_nat n)%Z /\ (n < 46)%nat).
  { exists (Z.to_nat (a - 25)). lia. }
  destruct Hn as (n & -> & Hn).
  do 46 (destruct n as [|n]; [eexists; split; vm_compute; reflexivity|]).
  lia.
Qed.

(** With the first and last rows of the table read off. *)
Lemma lookupWorklife_unfold (age : Q) :
  lookupWorklife age =
  match find (fun r => Z.eqb (wl_age r) (worklife_key 25 70 age))
          WORKLIFE_TABLE with
  | Some entry =>
      Some (Worklife.mk (Math_round (wl_years entry))
              (Math_round (age + inject_Z (Math_round (wl_years entry)))))
  | None => None
  end.
Proof. reflexivity. Qed.

(** C8. For every input age the lookup searches the table with the age
    clamped into [25, 70] and rounded to the nearest integer; that search
    always finds its row; and the exit age returned is
    round(age + round(row.years)), computed from the age as passed in and
    not read from the row's exit column: at age 80 the two differ. *)
Theorem lookupWorklife_contract :
  (forall age : Q,
     let a := Math_round (Qmax 25 (Qmin 70 age)) in
     (25 <= a <= 70)%Z /\
     exists entry,
       find (fun r => Z.eqb (wl_age r) a) WORKLIFE_TABLE = Some entry /\
       wl_age entry = a /\
       lookupWorklife age =
       Some (Worklife.mk (Math_round (wl_years entry))
               (Math_round (age + inject_Z (Math_round (wl_years entry)))))) /\
  (exists entry w,
     find (fun r => Z.eqb (wl_age r) 70) WORKLIFE_TABLE = Some entry /\
     lookupWorklife 80 = Some w /\
     Worklife.exitAge w = 84%Z /\ wl_exit entry = 74%Z).
Proof.
  split.
  - intros age a. subst a. rewrite clamp_round_commute.
    split; [apply worklife_key_range|].
    destruct (WORKLIFE_TABLE_find _ (worklife_key_range age))
      as (entry & Hfind & Hage).
    exists entry. split; [exact Hfind|]. split; [exact Hage|].
    rewrite lookupWorklife_unfold, Hfind. reflexivity.
  - eexists. eexists. repeat split; vm_compute; reflexivity.
Qed.

(** ** The year loop *)

Section YearLoopFacts.
Variable c : Config.
Variables effTax disc afterTaxAtStart : Q.

Local Abbreviation row := (year_row c effTax disc afterTaxAtStart).
Local Abbreviation body := (year_body c effTax disc afterTaxAtStart).
Local Abbreviation loop := (year_loop c effTax disc afterTaxAtStart).
Local Abbreviation loop_rows := (loop_rows c effTax disc afterTaxAtStart).

(** The last of [S n] iterations is the body run on what [n] left. *)
Lemma year_loop_last n : forall t v,
  loop (S n) t v = body (t + Z.of_nat n) (loop n t v).
Proof.
  induction n as [|n IH]; intros t v.
  - simpl. now rewrite Z.add_0_r.
  - change (loop (S (S n)) t v) with (loop (S n) (t + 1) (body t v)).
    rewrite IH. change (loop (S n) t v) with (loop n (t + 1) (body t v)).
    f_equal. lia.
Qed.

Lemma year_loop_rows n t v :
  Vars.rows (loop n t v) = Vars.rows v ++ loop_rows n t v.
Proof.
  induction n as [|n IH].
  - simpl. now rewrite app_nil_r.
  - rewrite year_loop_last. unfold year_body. simpl Vars.rows.
    rewrite IH. unfold loop_rows. rewrite seq_S, fmap_app.
    now rewrite <- app_assoc.
Qed.

Lemma loop_rows_length n t v : length (loop_rows n t v) = n.
Proof. unfold loop_rows. now rewrite length_fmap, length_seq. Qed.

Lemma loop_rows_lookup n t v (i : nat) :
  (i < n)%nat ->
  loop_rows n t v !! i = Some (row (t + Z.of_nat i) (loop i t v)).
Proof.
  intros Hi. unfold loop_rows.
  rewrite list_lookup_fmap, lookup_seq_lt by exact Hi. reflexivity.
Qed.

(** Fields of a row that do not depend on the branch taken. *)
Lemma row_year t v : YearRow.year (row t v) = t.
Proof. unfold year_row. now destruct (unemploymentTiming c). Qed.

Lemma row_age t v : YearRow.age (row t v) = ageAtStart c + inject_Z t.
Proof. unfold year_row. now destruct (unemploymentTiming c). Qed.

Lemma row_taxRate t v : YearRow.taxRate (row t v) = effTax.
Proof. unfold year_row. now destruct (unemploymentTiming c). Qed.

Lemma row_consumptionRate t v :
  YearRow.consumptionRate (row t v) = yearConsumption c t.
Proof. unfold year_row. now destruct (unemploymentTiming c). Qed.

Lemma row_consumptionAmt t v :
  YearRow.consumptionAmt (row t v) =
  consumptionAmt_of c afterTaxAtStart (yearConsumption c t).
Proof. unfold year_row. now destruct (unemploymentTiming c). Qed.
End YearLoopFacts.

(** The rows of [results] are the rows of the year loop run from year 1 on
    the base salary and medical benefit. *)
Lemma results_rows (c : Config) (cy : Q) :
  Results.rows (results c cy) =
  loop_rows c (resolve_effTax c) (resolve_disc c)
    (baseIncome c * (1 - resolve_effTax c)) (loop_count cy) 1
    (Vars.mk (baseIncome c) (medicalBase c) 0 []).
Proof.
  unfold results. simpl Results.rows. now rewrite year_loop_rows.
Qed.

(** Year [t] of the horizon has its row at index [t - 1], built by the loop
    body from the variables the earlier years left. *)
Lemma results_row_of_year (c : Config) (cy : Q) (t : Z) :
  (1 <= t <= Z.of_nat (loop_count cy))%Z ->
  exists v,
    Results.rows (results c cy) !! Z.to_nat (t - 1) =
    Some (year_row c (resolve_effTax c) (resolve_disc c)
            (baseIncome c * (1 - resolve_effTax c)) t v).
Proof.
  intros Ht. rewrite results_rows.
  eexists. rewrite loop_rows_lookup by lia.
  do 2 f_equal. lia.
Qed.

Lemma results_effTax (c : Config) (cy : Q) :
  Results.effTax (results c cy) = resolve_effTax c.
Proof. reflexivity. Qed.

Lemma results_rows_length (c : Config) (cy : Q) :
  length (Results.rows (results c cy)) = loop_count cy.
Proof. rewrite results_rows. apply loop_rows_length. Qed.

(** ** The two orderings of the yearly adjustments *)




(** C2. In the after-medical ordering every projection year t has a row in
    which postTax = incomePlusRet x (1 - effectiveTaxRate),
    afterConsumption = postTax - consumptionDollars, and both the
    pre-discount subtotal and the reported unemployment-adjusted figure are
    (afterConsumption + medical) x (1 - unemploymentFactor), so that the
    medical contribution enters scaled by (1 - unemploymentFactor). *)
Theorem after_medical_year_quantities (c : Config) (cy : Q) (t : Z) :
  unemploymentTiming c = after_medical ->
  (1 <= t <= Z.of_nat (loop_count cy))%Z ->
  let effTax := Results.effTax (results c cy) in
  exists r,
    Results.rows (results c cy) !! Z.to_nat (t - 1) = Some r /\
    YearRow.year r = t /\ YearRow.taxRate r = effTax /\
    YearRow.postTaxProjectedIncome r = YearRow.incomePlusRet r * (1 - effTax) /\
    YearRow.incomeLessConsumption r =
      YearRow.postTaxProjectedIncome r - YearRow.consumptionAmt r /\
    YearRow.postTaxAdjusted r =
      (YearRow.incomeLessConsumption r + YearRow.healthContribution r) *
      (1 - unemploymentFactor c) /\
    YearRow.unemploymentAdjIncome r = YearRow.postTaxAdjusted r /\
    YearRow.postTaxAdjusted r ==
      YearRow.incomeLessConsumption r * (1 - unemploymentFactor c) +
      YearRow.healthContribution r * (1 - unemploymentFactor c).
Proof.
  intros Htiming Ht effTax.
  destruct (results_row_of_year c cy t Ht) as [v Hrow].
  eexists. split; [exact Hrow|].
  subst effTax. rewrite results_effTax.
  unfold year_row. rewrite Htiming. cbn [YearRow.year YearRow.taxRate
    YearRow.unemploymentAdjIncome YearRow.incomePlusRet YearRow.postTaxProjectedIncome
    YearRow.incomeLessConsumption YearRow.consumptionAmt YearRow.postTaxAdjusted
    YearRow.healthContribution].
  repeat (split; [reflexivity|]).
  ring.
Qed.

Lemma after_medical_year_quantities_witness :
  exists r,
    Results.rows (results legacy_config 11) !! 2%nat = Some r /\
    YearRow.year r = 3%Z /\
    YearRow.unemploymentAdjIncome r = YearRow.postTaxAdjusted r.
Proof.
  destruct (after_medical_year_quantities legacy_config 11 3)
    as (r & Hr & Hy & _ & _ & _ & _ & Hu & _).
  - reflexivity.
  - vm_compute. split; discriminate.
  - exists r. split; [exact Hr|]. split; [exact Hy|exact Hu].
Defined.

(** ** Consumption *)

(** C3. In wrongful-death mode the consumption dollars of every projection
    year t are (baseIncome x (1 - effectiveTaxRate)) x consumptionRate(t),
    with the rate of year t the manual percentage or the bracket lookup at
    the base income for the dependents still under 23 in year t - 1; no
    grown salary enters.  In injury mode the rate and the dollars are 0 in
    every year. *)
Theorem consumption_anchored_to_base_income (c : Config) (cy : Q) (t : Z) :
  (1 <= t <= Z.of_nat (loop_count cy))%Z ->
  let effTax :=
    match taxRate c with
    | auto => interpolateTaxRate (baseIncome c) NY_EFFECTIVE_TAX_TABLE
    | manual v => v
    end in
  Results.effTax (results c cy) = effTax /\
  exists r,
    Results.rows (results c cy) !! Z.to_nat (t - 1) = Some r /\
    YearRow.year r = t /\ YearRow.taxRate r = effTax /\
    (mode c = wrongfulDeath ->
       YearRow.consumptionAmt r =
         (baseIncome c * (1 - effTax)) * YearRow.consumptionRate r /\
       YearRow.consumptionRate r =
         if manualConsumption c then consumptionPct c
         else interpolateConsumption (baseIncome c) (marital c)
                (getChildCountUnder23 [child1Age c; child2Age c]
                   (inject_Z t - 1))
                CONSUMPTION_TABLE) /\
    (mode c = injury ->
       YearRow.consumptionRate r = 0 /\ YearRow.consumptionAmt r = 0).
Proof.
  intros Ht effTax. split; [reflexivity|].
  destruct (results_row_of_year c cy t Ht) as [v Hrow].
  eexists. split; [exact Hrow|].
  change effTax with (resolve_effTax c). clear effTax.
  rewrite row_year, row_taxRate, row_consumptionRate, row_consumptionAmt.
  do 2 (split; [reflexivity|]).
  unfold consumptionAmt_of, yearConsumption.
  split; intros ->; split; reflexivity.
Qed.

Lemma consumption_anchored_to_base_income_witness :
  (exists r,
     Results.rows (results initial_config 11) !! 4%nat = Some r /\
     YearRow.consumptionAmt r = (100000 * (1 - 0.2021)) * YearRow.consumptionRate r /\
     YearRow.consumptionRate r = 0.155) /\
  (exists r,
     Results.rows (results injury_config 11) !! 4%nat = Some r /\
     YearRow.consumptionRate r = 0 /\ YearRow.consumptionAmt r = 0).
Proof.
  split.
  - destruct (consumption_anchored_to_base_income initial_config 11 5)
      as (_ & r & Hr & _ & _ & Hwd & _).
    + vm_compute. split; discriminate.
    + exists r. split; [exact Hr|]. destruct (Hwd eq_refl) as [Hamt Hrate].
      split; [exact Hamt|]. rewrite Hrate. reflexivity.
  - destruct (consumption_anchored_to_base_income injury_config 11 5)
      as (_ & r & Hr & _ & _ & _ & Hinj).
    + vm_compute. split; discriminate.
    + exists r. split; [exact Hr|]. exact (Hinj eq_refl).
Defined.

(** ** Offsets and the net present value *)

Lemma offset_loop_last (c : Config) (d : Q) (n : nat) : forall t acc,
  offset_loop c d (S n) t acc =
  offset_loop c d n t acc + offsetAnnual c / Math_pow (1 + d) (t + Z.of_nat n).
Proof.
  induction n as [|n IH]; intros t acc.
  - simpl. now rewrite Z.add_0_r.
  - change (offset_loop c d (S (S n)) t acc)
      with (offset_loop c d (S n) (t + 1)
              (acc + offsetAnnual c / Math_pow (1 + d) t)).
    rewrite IH.
    change (offset_loop c d (S n) t acc)
      with (offset_loop c d n (t + 1)
              (acc + offsetAnnual c / Math_pow (1 + d) t)).
    do 3 f_equal. lia.
Qed.

(** The accumulating loop builds the specification's sum term for term. *)
Lemma offset_loop_sum (c : Config) (d : Q) (n : nat) :
  offset_loop c d n 1 0 = periodic_offset_sum (offsetAnnual c) d n.
Proof.
  induction n as [|n IH]; [reflexivity|].
  rewrite offset_loop_last, IH.
  change (periodic_offset_sum (offsetAnnual c) d (S n))
    with (periodic_offset_sum (offsetAnnual c) d n +
          offsetAnnual c / Math_pow (1 + d) (Z.of_nat (S n))).
  do 3 f_equal. lia.
Qed.

Lemma Math_max_0_nonpos (x : Q) : x <= 0 -> Math_max 0 x = 0.
Proof.
  intros H. unfold Math_max, Qmax, GenericMinMax.gmax.
  destruct (0 ?= x) eqn:E; try reflexivity.
  exfalso. apply (Qlt_not_le 0 x); [|exact H]. apply Qlt_alt. exact E.
Qed.

Lemma Math_max_0_pos (x : Q) : 0 < x -> Math_max 0 x = x.
Proof.
  intros H. unfold Math_max, Qmax, GenericMinMax.gmax.
  assert (E : (0 ?= x) = Lt) by (apply Qlt_alt; exact H).
  now rewrite E.
Qed.

Lemma Math_max_0_nonneg (x : Q) : 0 <= Math_max 0 x.
Proof.
  destruct (Qlt_le_dec 0 x) as [H|H].
  - rewrite Math_max_0_pos by exact H. now apply Qlt_le_weak.
  - rewrite Math_max_0_nonpos by exact H. apply Qle_refl.
Qed.

(** C4. With a periodic offset configured (annual amount and year count
    both positive) offsetsPV is the sum over t = 1..offsetYears of
    offsetAnnual / (1 + discountRate)^t plus the lump sum, undiscounted;
    netPV is max(0, grossPV - offsetsPV): the difference when that is
    positive, 0 otherwise, so never negative and exactly 0 whenever
    offsetsPV exceeds grossPV. *)
Theorem offsets_and_net_present_value (c : Config) (cy : Q) :
  let res := results c cy in
  (0 < offsetAnnual c -> 0 < offsetYears c ->
     Results.pvOffset res =
       periodic_offset_sum (offsetAnnual c) (Results.disc res)
         (loop_count (offsetYears c)) + offsetLumpSum c) /\
  (Results.pvOffset res < Results.pvSum res ->
     Results.netPV res = Results.pvSum res - Results.pvOffset res) /\
  (Results.pvSum res <= Results.pvOffset res -> Results.netPV res = 0) /\
  0 <= Results.netPV res.
Proof.
  intros res. subst res. unfold results.
  cbn [Results.pvOffset Results.pvSum Results.netPV Results.disc].
  split; [|split; [|split]].
  - intros Ha Hy. apply gtb_true in Ha, Hy. rewrite Ha, Hy. simpl andb.
    now rewrite offset_loop_sum.
  - intros H. apply Math_max_0_pos. lra.
  - intros H. apply Math_max_0_nonpos. lra.
  - apply Math_max_0_nonneg.
Qed.

Lemma offsets_and_net_present_value_witness :
  let res := results large_offset_config 11 in
  Results.pvOffset res =
    0 + 50000 / Math_pow (1 + 0.021) 1 + 50000 / Math_pow (1 + 0.021) 2
      + 50000 / Math_pow (1 + 0.021) 3 + 10000000 /\
  Results.netPV res = 0.
Proof.
  destruct (offsets_and_net_present_value large_offset_config 11)
    as (Hoff & _ & Hfloor & _).
  split.
  - rewrite Hoff; reflexivity.
  - apply Hfloor. vm_compute. discriminate.
Defined.

(** C10. When the annual offset amount or the offset year count is not
    strictly positive the periodic term is skipped and offsetsPV is the lump
    sum alone; a negative annual amount therefore never enters the sum. *)
Theorem periodic_offset_needs_both_positive (c : Config) (cy : Q) :
  offsetAnnual c <= 0 \/ offsetYears c <= 0 ->
  Results.pvOffset (results c cy) == offsetLumpSum c.
Proof.
  intros H. unfold results. cbn [Results.pvOffset].
  assert (E : gtb (offsetAnnual c) 0 && gtb (offsetYears c) 0 = false).
  { apply andb_false_iff. destruct H as [H|H]; [left|right];
      now apply gtb_false. }
  rewrite E. ring.
Qed.

Lemma periodic_offset_needs_both_positive_witness :
  Results.pvOffset (results negative_offset_config 11) == 1000.
Proof.
  apply (periodic_offset_needs_both_positive negative_offset_config 11).
  left. discriminate.
Defined.

(** ** The age-55 scenario *)

(** C5, as stated, fails: the 55-row holds 10.53 years, which rounds to 11,
    so the scenario has neither a 10-year horizon, nor 10 rows, nor an age
    column that stops at 65. *)
Lemma scenario_horizon_is_not_ten :
  exists w res,
    lookupWorklife (ageAtStart scenario_config) = Some w /\
    VCFEstimator scenario_config = Some res /\
    Worklife.years w <> 10%Z /\
    length (Results.rows res) <> 10%nat /\
    YearRow.age <$> Results.rows res <> [56; 57; 58; 59; 60; 61; 62; 63; 64; 65].
Proof.
  eexists. eexists.
  split; [vm_compute; reflexivity|].
  split; [vm_compute; reflexivity|].
  repeat split; vm_compute; discriminate.
Qed.

Lemma results_rows_ages (c : Config) (cy : Q) :
  YearRow.age <$> Results.rows (results c cy) =
  (fun k => ageAtStart c + inject_Z (1 + Z.of_nat k)) <$> seq 0 (loop_count cy).
Proof.
  rewrite results_rows. unfold loop_rows.
  rewrite <- list_fmap_compose. apply list_fmap_ext.
  intros i k _. simpl. apply row_age.
Qed.

(** C5 (amended). With starting age 55, the horizon taken from the firm
    work-life table and the discount rate automatic, the 55-row (10.53
    years, rounded to the nearest year) gives an 11-year horizon; the
    projection has exactly 11 rows whose attained ages run 56..66, strictly
    increasing; and the discount rate is 2.1%. *)
Theorem scenario_age_55 (c : Config) :
  ageAtStart c = 55 -> useFirmWorklife c = true -> discountOverride c = auto ->
  exists entry w res,
    find (fun r => Z.eqb (wl_age r) 55) WORKLIFE_TABLE = Some entry /\
    wl_years entry = 10.53 /\
    lookupWorklife (ageAtStart c) = Some w /\
    Worklife.years w = 11%Z /\
    VCFEstimator c = Some res /\
    length (Results.rows res) = 11%nat /\
    YearRow.age <$> Results.rows res =
      [56; 57; 58; 59; 60; 61; 62; 63; 64; 65; 66] /\
    StronglySorted Qlt (YearRow.age <$> Results.rows res) /\
    Results.disc res = 0.021.
Proof.
  intros Hage Hfirm Hdisc.
  assert (Hwl : lookupWorklife (ageAtStart c) = Some (Worklife.mk 11 66))
    by (rewrite Hage; reflexivity).
  assert (Hages : YearRow.age <$> Results.rows (results c 11) =
                  [56; 57; 58; 59; 60; 61; 62; 63; 64; 65; 66])
    by (rewrite results_rows_ages, Hage; reflexivity).
  exists (mkWL 55 10.53 66), (Worklife.mk 11 66), (results c 11).
  split; [reflexivity|]. split; [reflexivity|].
  split; [exact Hwl|]. split; [reflexivity|].
  split.
  { unfold VCFEstimator. rewrite Hwl. simpl. unfold calcYears.
    rewrite Hfirm. reflexivity. }
  split; [now rewrite results_rows_length|].
  split; [exact Hages|].
  split.
  { rewrite Hages.
    repeat (apply SSorted_cons;
            [|repeat (constructor; [reflexivity|]); constructor]).
    apply SSorted_nil. }
  unfold results. cbn [Results.disc]. unfold resolve_disc.
  rewrite Hdisc, Hage. reflexivity.
Qed.

Lemma scenario_age_55_witness :
  exists res,
    VCFEstimator scenario_config = Some res /\
    length (Results.rows res) = 11%nat /\
    YearRow.age <$> Results.rows res =
      [56; 57; 58; 59; 60; 61; 62; 63; 64; 65; 66] /\
    Results.disc res = 0.021.
Proof.
  destruct (scenario_age_55 scenario_config)
    as (entry & w & res & _ & _ & _ & _ & Hres & Hlen & Hages & _ & Hdisc);
    try reflexivity.
  exists res. repeat split; assumption.
Defined.

(** * Further properties of the engine *)

(** ** Dependents under 23 *)

(** The reducer of [getChildCountUnder23] for year index [y]. *)
Local Abbreviation count_step y :=
  (fun (acc : Z) (age : option Q) =>
     match age with
     | Some a => if ltb (a + y) 23 then (acc + 1)%Z else acc
     | None => acc
     end).

Lemma ltb_true (x y : Q) : ltb x y = true <-> x < y.
Proof. unfold ltb. rewrite negb_true_iff. apply (geb_false x y). Qed.

Lemma ltb_false (x y : Q) : ltb x y = false <-> y <= x.
Proof. unfold ltb. rewrite negb_false_iff. apply Qle_bool_iff. Qed.

Lemma child_count_fold_range (y : Q) (ages : list (option Q)) : forall acc,
  (acc <= fold_left (count_step y) ages acc <= acc + Z.of_nat (length ages))%Z.
Proof.
  induction ages as [|age ages IH]; intros acc; simpl fold_left.
  - simpl. lia.
  - destruct age as [a|]; [destruct (ltb (a + y) 23)|];
      match goal with |- context [fold_left _ _ ?x] => specialize (IH x) end;
      simpl length; lia.
Qed.

Lemma child_count_fold_none (y : Q) (ages : list (option Q)) : forall acc,
  (forall a, In (Some a) ages -> 23 <= a + y) ->
  fold_left (count_step y) ages acc = acc.
Proof.
  induction ages as [|age ages IH]; intros acc Hold; [reflexivity|].
  simpl fold_left. destruct age as [a|].
  - assert (E : ltb (a + y) 23 = false)
      by (apply ltb_false, Hold; now left).
    rewrite E. apply IH. intros a' Hin. apply Hold. now right.
  - apply IH. intros a' Hin. apply Hold. now right.
Qed.

Lemma child_count_fold_mono (y1 y2 : Q) (ages : list (option Q)) :
  y1 <= y2 -> forall acc1 acc2, (acc2 <= acc1)%Z ->
  (fold_left (count_step y2) ages acc2 <= fold_left (count_step y1) ages acc1)%Z.
Proof.
  intros Hy. induction ages as [|age ages IH]; intros acc1 acc2 Hacc;
    [exact Hacc|].
  simpl fold_left. apply IH. destruct age as [a|]; [|exact Hacc].
  destruct (ltb (a + y2) 23) eqn:E2.
  - assert (E1 : ltb (a + y1) 23 = true).
    { apply ltb_true. apply ltb_true in E2.
      eapply Qle_lt_trans; [|exact E2]. lra. }
    rewrite E1. lia.
  - destruct (ltb (a + y1) 23); lia.
Qed.

(** X1. [getChildCountUnder23] always answers 0, 1 or 2, never more than
    there are entries, and it answers 0 as soon as no listed child is under
    23 in that year (in particular for an empty list or a list of "none"). *)
Theorem getChildCountUnder23_range (ages : list (option Q)) (y : Q) :
  (exists k, getChildCountUnder23 ages y = inject_Z k /\
             (0 <= k <= 2)%Z /\ (k <= Z.of_nat (length ages))%Z) /\
  ((forall a, In (Some a) ages -> 23 <= a + y) ->
   getChildCountUnder23 ages y = inject_Z 0).
Proof.
  unfold getChildCountUnder23. split.
  - eexists. split; [reflexivity|].
    pose proof (child_count_fold_range y ages 0). lia.
  - intros Hold. now rewrite child_count_fold_none.
Qed.

Lemma getChildCountUnder23_range_witness :
  getChildCountUnder23 [Some 23; None; Some 30] 0 = inject_Z 0.
Proof.
  apply (getChildCountUnder23_range [Some 23; None; Some 30] 0).
  intros a [H|[H|[H|[]]]]; inversion H; subst; discriminate.
Defined.

(** X2. Children only age out: for a fixed list of dependents the count of
    those under 23 never rises as the year index grows. *)
Theorem getChildCountUnder23_nonincreasing (ages : list (option Q))
    (y1 y2 : Q) :
  y1 <= y2 ->
  getChildCountUnder23 ages y2 <= getChildCountUnder23 ages y1.
Proof.
  intros Hy. unfold getChildCountUnder23. rewrite <- Zle_Qle.
  pose proof (child_count_fold_mono y1 y2 ages Hy 0 0 (Z.le_refl 0)). lia.
Qed.

Lemma getChildCountUnder23_nonincreasing_witness :
  getChildCountUnder23 [Some 18; Some 10] 5 <=
  getChildCountUnder23 [Some 18; Some 10] 4.
Proof.
  apply (getChildCountUnder23_nonincreasing [Some 18; Some 10] 4 5).
  discriminate.
Defined.

(** X3. A lone child of age a counts in year index y exactly while
    a + y < 23: the child is dropped in the year it turns 23. *)
Theorem getChildCountUnder23_single (a y : Q) :
  (a + y < 23 -> getChildCountUnder23 [Some a; None] y = inject_Z 1) /\
  (23 <= a + y -> getChildCountUnder23 [Some a; None] y = inject_Z 0).
Proof.
  unfold getChildCountUnder23. simpl fold_left. split; intros H.
  - apply ltb_true in H. now rewrite H.
  - apply ltb_false in H. now rewrite H.
Qed.

Lemma getChildCountUnder23_single_witness :
  getChildCountUnder23 [Some 18; None] 4 = inject_Z 1 /\
  getChildCountUnder23 [Some 18; None] 5 = inject_Z 0.
Proof.
  split.
  - apply (getChildCountUnder23_single 18 4). reflexivity.
  - apply (getChildCountUnder23_single 18 5). discriminate.
Defined.

(** ** The shipped bracket tables *)

(** On the shipped tables the scans end on a row of the table. *)
Lemma shipped_tax_rate_in (q : Q) :
  In (interpolateTaxRate q NY_EFFECTIVE_TAX_TABLE)
     (map rate NY_EFFECTIVE_TAX_TABLE).
Proof.
  unfold interpolateTaxRate, NY_EFFECTIVE_TAX_TABLE.
  match goal with
  | |- In (bracket_loop _ _ _ ?cur ?tbl) _ =>
      destruct (bracket_loop_in income rate q tbl cur) as [->|H];
        [now left|exact H]
  end.
Qed.

Lemma shipped_consumption_row_in (q : Q) :
  exists r, In r CONSUMPTION_TABLE /\
    forall m n,
      interpolateConsumption q m n CONSUMPTION_TABLE = consumption_col m n r.
Proof.
  unfold interpolateConsumption, CONSUMPTION_TABLE.
  match goal with
  | |- context [bracket_loop c_income ?f q ?cur ?tbl] =>
      exists (bracket_loop c_income f q cur tbl); split; [|reflexivity];
      destruct (bracket_loop_in c_income f q tbl cur) as [->|H];
        [now left|now rewrite map_id in H]
  end.
Qed.

(** The column an integer count of dependents selects. *)
Lemma consumption_col_int (m : Marital) (k : Z) :
  consumption_col m (inject_Z k) =
  match m with
  | single => if (1 <=? k)%Z then Single1Plus else Single0
  | married =>
      if (2 <=? k)%Z then Married2Plus
      else if (k =? 1)%Z then Married1 else Married0
  end.
Proof.
  assert (Hge : forall j, geb (inject_Z k) (inject_Z j) = (j <=? k)%Z).
  { intros j. destruct (Z.leb_spec j k) as [H|H].
    - apply geb_true. now rewrite <- Zle_Qle.
    - apply geb_false. now rewrite <- Zlt_Qlt. }
  assert (Heq : eqb (inject_Z k) (inject_Z 1) = (k =? 1)%Z).
  { unfold eqb. destruct (Z.eqb_spec k 1) as [->|H]; [reflexivity|].
    destruct (Qeq_bool (inject_Z k) (inject_Z 1)) eqn:E; [|reflexivity].
    apply Qeq_bool_iff, inject_Z_eq in E. contradiction. }
  unfold consumption_col. destruct m.
  - change (geb (inject_Z k) 1) with (geb (inject_Z k) (inject_Z 1)).
    now rewrite Hge.
  - change (geb (inject_Z k) 2) with (geb (inject_Z k) (inject_Z 2)).
    change (eqb (inject_Z k) 1) with (eqb (inject_Z k) (inject_Z 1)).
    now rewrite Hge, Heq.
Qed.

(** In every shipped row a household with more dependents consumes no
    larger a share. *)
Lemma CONSUMPTION_TABLE_columns_ordered (r : ConsumptionRow) :
  In r CONSUMPTION_TABLE ->
  Single1Plus r <= Single0 r /\
  Married1 r <= Married0 r /\ Married2Plus r <= Married1 r.
Proof.
  intros Hin. unfold CONSUMPTION_TABLE in Hin. simpl in Hin.
  repeat (destruct Hin as [<-|Hin]; [repeat split; discriminate|]).
  destruct Hin.
Qed.

Lemma consumption_col_int_mono (m : Marital) (k1 k2 : Z) (r : ConsumptionRow) :
  In r CONSUMPTION_TABLE -> (k1 <= k2)%Z ->
  consumption_col m (inject_Z k2) r <= consumption_col m (inject_Z k1) r.
Proof.
  intros Hin Hk. rewrite !consumption_col_int.
  destruct (CONSUMPTION_TABLE_columns_ordered r Hin) as (Hs & Hm1 & Hm2).
  destruct m.
  - destruct (Z.leb_spec 1 k2), (Z.leb_spec 1 k1);
      try lia; try apply Qle_refl; exact Hs.
  - destruct (Z.leb_spec 2 k2), (Z.leb_spec 2 k1),
      (Z.eqb_spec k2 1), (Z.eqb_spec k1 1);
      try lia; try apply Qle_refl; try assumption.
    eapply Qle_trans; eassumption.
Qed.

(** X4. On the shipped consumption table, for a given income and marital
    status, a larger whole number of dependents under 23 never gives a
    larger consumption rate. *)
Theorem shipped_consumption_nonincreasing_in_dependents
    (q : Q) (m : Marital) (k1 k2 : Z) :
  (k1 <= k2)%Z ->
  interpolateConsumption q m (inject_Z k2) CONSUMPTION_TABLE <=
  interpolateConsumption q m (inject_Z k1) CONSUMPTION_TABLE.
Proof.
  intros Hk. destruct (shipped_consumption_row_in q) as (r & Hin & Hr).
  rewrite !Hr. now apply consumption_col_int_mono.
Qed.

Lemma shipped_consumption_nonincreasing_in_dependents_witness :
  interpolateConsumption 100000 married (inject_Z 2) CONSUMPTION_TABLE <=
  interpolateConsumption 100000 married (inject_Z 0) CONSUMPTION_TABLE.
Proof.
  apply (shipped_consumption_nonincreasing_in_dependents 100000 married 0 2).
  discriminate.
Defined.

(** The count is a whole number only by construction of the caller: at one
    and a half dependents a married household falls back to the
    no-dependents column, above the one-dependent rate. *)
Example consumption_col_fractional_count :
  interpolateConsumption 100000 married 1.5 CONSUMPTION_TABLE = 0.155 /\
  interpolateConsumption 100000 married 1 CONSUMPTION_TABLE = 0.105.
Proof. split; reflexivity. Qed.

Lemma CONSUMPTION_TABLE_range (r : ConsumptionRow) (m : Marital) (n : Q) :
  In r CONSUMPTION_TABLE ->
  0.043 <= consumption_col m n r <= 0.779.
Proof.
  intros Hin.
  assert (H : (0.043 <= Single0 r <= 0.779 /\
               0.043 <= Single1Plus r <= 0.779) /\
              0.043 <= Married0 r <= 0.779 /\
              0.043 <= Married1 r <= 0.779 /\
              0.043 <= Married2Plus r <= 0.779).
  { unfold CONSUMPTION_TABLE in Hin. simpl in Hin.
    repeat (destruct Hin as [<-|Hin]; [repeat split; discriminate|]).
    destruct Hin. }
  destruct H as ((H0 & H1) & H2 & H3 & H4).
  unfold consumption_col. destruct m.
  - now destruct (geb n 1).
  - destruct (geb n 2); [assumption|]. now destruct (eqb n 1).
Qed.

(** X5. Whatever the income, marital status and dependent count passed in,
    the consumption rate read from the shipped table lies between 4.3% and
    77.9%: it is always a proper share of income. *)
Theorem shipped_consumption_rate_range (q : Q) (m : Marital) (n : Q) :
  0.043 <= interpolateConsumption q m n CONSUMPTION_TABLE <= 0.779.
Proof.
  destruct (shipped_consumption_row_in q) as (r & Hin & Hr).
  rewrite Hr. now apply CONSUMPTION_TABLE_range.
Qed.

Lemma shipped_tax_rate_bounds (q : Q) :
  0.1293 <= interpolateTaxRate q NY_EFFECTIVE_TAX_TABLE <= 0.3378.
Proof.
  pose proof (shipped_tax_rate_in q) as Hin.
  set (x := interpolateTaxRate q NY_EFFECTIVE_TAX_TABLE) in *.
  unfold NY_EFFECTIVE_TAX_TABLE in Hin. simpl in Hin.
  repeat (destruct Hin as [<-|Hin]; [split; discriminate|]).
  destruct Hin.
Qed.

(** X6. Whatever the income, the tax rate read from the shipped table lies
    between its lowest entry, 12.93%, and its highest, 33.78%. *)
Theorem shipped_tax_rate_range (q : Q) :
  0.1293 <= interpolateTaxRate q NY_EFFECTIVE_TAX_TABLE <= 0.3378.
Proof. exact (shipped_tax_rate_bounds q). Qed.

(** ** Discount bands *)

Lemma leb_false (x y : Q) : leb x y = false <-> y < x.
Proof. apply (geb_false y x). Qed.

(** X7. The automatic discount rate is one of 2.6%, 2.4% and 2.1%, and it
    never rises with age, fractional ages included: up to 35 it is 2.6%,
    above 35 and up to 54 it is 2.4%, above 54 it is 2.1%. *)
Theorem discountRateAfterTaxForAge_bands (a1 a2 : Q) :
  (a1 <= 35 -> discountRateAfterTaxForAge a1 = 0.026) /\
  (35 < a1 -> a1 <= 54 -> discountRateAfterTaxForAge a1 = 0.024) /\
  (54 < a1 -> discountRateAfterTaxForAge a1 = 0.021) /\
  (a1 <= a2 ->
   discountRateAfterTaxForAge a2 <= discountRateAfterTaxForAge a1).
Proof.
  unfold discountRateAfterTaxForAge.
  destruct (leb a1 35) eqn:E1, (leb a1 54) eqn:E1',
           (leb a2 35) eqn:E2, (leb a2 54) eqn:E2';
    repeat match goal with
    | H : leb _ _ = true |- _ => apply leb_true in H
    | H : leb _ _ = false |- _ => apply leb_false in H
    end;
    repeat split; intros; try reflexivity; try discriminate; lra.
Qed.

Lemma discountRateAfterTaxForAge_bands_witness :
  discountRateAfterTaxForAge 35.5 = 0.024 /\
  discountRateAfterTaxForAge 54.5 = 0.021 /\
  discountRateAfterTaxForAge 54.5 <= discountRateAfterTaxForAge 35.5.
Proof.
  destruct (discountRateAfterTaxForAge_bands 35.5 54.5) as (_ & Hmid & _ & Hmono).
  destruct (discountRateAfterTaxForAge_bands 54.5 54.5) as (_ & _ & Hhi & _).
  split; [|split].
  - apply Hmid; [reflexivity|discriminate].
  - apply Hhi. reflexivity.
  - apply Hmono. discriminate.
Defined.

(** ** Work-life horizon and exit age *)

Lemma Math_round_inject_Z (k : Z) : Math_round (inject_Z k) = k.
Proof.
  unfold Math_round, Qfloor, inject_Z, Qplus, Qdiv, Qmult, Qinv. simpl.
  change ((k * 2 + 1) / 2 = k)%Z.
  rewrite Z.div_add_l by discriminate.
  change (1 / 2)%Z with 0%Z. lia.
Qed.

Lemma Math_round_int (age : Q) (k : Z) :
  age == inject_Z k -> Math_round age = k.
Proof.
  intros H. rewrite (Math_round_comp _ _ H). apply Math_round_inject_Z.
Qed.

Lemma worklife_key_mono (a1 a2 : Q) :
  a1 <= a2 -> (worklife_key 25 70 a1 <= worklife_key 25 70 a2)%Z.
Proof.
  intros H. unfold worklife_key. pose proof (Math_round_mono _ _ H). lia.
Qed.

(** What the lookup returns, in terms of the row of the clamped age. *)
Lemma lookupWorklife_result (age : Q) :
  exists w,
    lookupWorklife age = Some w /\
    Worklife.years w = worklife_years_at (worklife_key 25 70 age) /\
    Worklife.exitAge w = Math_round (age + inject_Z (Worklife.years w)).
Proof.
  destruct (WORKLIFE_TABLE_find _ (worklife_key_range age))
    as (entry & Hfind & _).
  eexists. rewrite lookupWorklife_unfold, Hfind.
  split; [reflexivity|]. unfold worklife_years_at. rewrite Hfind.
  split; reflexivity.
Qed.

(** Row by row, one more year of age never means more years left. *)
Lemma worklife_years_at_step (a : Z) :
  (25 <= a < 70)%Z -> (worklife_years_at (a + 1) <= worklife_years_at a)%Z.
Proof.
  intros Ha.
  assert (Hn : exists n : nat, a = (25 + Z.of_nat n)%Z /\ (n < 45)%nat).
  { exists (Z.to_nat (a - 25)). lia. }
  destruct Hn as (n & -> & Hn).
  do 45 (destruct n as [|n]; [vm_compute; discriminate|]).
  lia.
Qed.

Lemma worklife_years_at_mono (a b : Z) :
  (25 <= a)%Z -> (a <= b)%Z -> (b <= 70)%Z ->
  (worklife_years_at b <= worklife_years_at a)%Z.
Proof.
  intros Ha Hab Hb.
  assert (Hn : exists n : nat, b = (a + Z.of_nat n)%Z).
  { exists (Z.to_nat (b - a)). lia. }
  destruct Hn as (n & ->). clear Hab.
  induction n as [|n IH]; [rewrite Z.add_0_r; lia|].
  etransitivity; [|apply IH; lia].
  replace (a + Z.of_nat (S n))%Z with (a + Z.of_nat n + 1)%Z by lia.
  apply worklife_years_at_step. lia.
Qed.

Lemma worklife_years_at_range (a : Z) :
  (25 <= a <= 70)%Z -> (4 <= worklife_years_at a <= 35)%Z.
Proof.
  intros Ha.
  pose proof (worklife_years_at_mono 25 a).
  pose proof (worklife_years_at_mono a 70).
  change (worklife_years_at 25) with 35%Z in *.
  change (worklife_years_at 70) with 4%Z in *. lia.
Qed.

(** At a whole-number age the exit age is that age plus the horizon. *)
Lemma lookupWorklife_exit_int (age : Q) (k : Z) (w : Worklife.t) :
  age == inject_Z k -> lookupWorklife age = Some w ->
  Worklife.exitAge w = (k + Worklife.years w)%Z.
Proof.
  intros Hk Hw. destruct (lookupWorklife_result age) as (w' & Hw' & _ & He).
  rewrite Hw in Hw'. injection Hw' as <-.
  rewrite He. apply Math_round_int. rewrite Hk, inject_Z_plus. reflexivity.
Qed.

(** X8. The work-life lookup answers for every age, with a horizon between
    4 and 35 years, and an older age never gets a longer horizon. *)
Theorem lookupWorklife_years_bounded_nonincreasing (a1 a2 : Q) :
  exists w1 w2,
    lookupWorklife a1 = Some w1 /\ lookupWorklife a2 = Some w2 /\
    (4 <= Worklife.years w1 <= 35)%Z /\
    (a1 <= a2 -> (Worklife.years w2 <= Worklife.years w1)%Z).
Proof.
  destruct (lookupWorklife_result a1) as (w1 & H1 & Hy1 & _).
  destruct (lookupWorklife_result a2) as (w2 & H2 & Hy2 & _).
  exists w1, w2. split; [exact H1|]. split; [exact H2|].
  pose proof (worklife_key_range a1) as R1.
  pose proof (worklife_key_range a2) as R2.
  rewrite Hy1, Hy2. split.
  - now apply worklife_years_at_range.
  - intros H. apply worklife_years_at_mono; try lia.
    now apply worklife_key_mono.
Qed.

Lemma lookupWorklife_years_bounded_nonincreasing_witness :
  exists w1 w2,
    lookupWorklife 30 = Some w1 /\ lookupWorklife 61.5 = Some w2 /\
    (Worklife.years w2 <= Worklife.years w1)%Z.
Proof.
  destruct (lookupWorklife_years_bounded_nonincreasing 30 61.5)
    as (w1 & w2 & H1 & H2 & _ & Hmono).
  exists w1, w2. split; [exact H1|]. split; [exact H2|].
  apply Hmono. discriminate.
Defined.

(** Each shipped row's exit column is its age plus its rounded years. *)
Lemma WORKLIFE_TABLE_exit_column (a : Z) :
  (25 <= a <= 70)%Z ->
  exists entry,
    find (fun r => Z.eqb (wl_age r) a) WORKLIFE_TABLE = Some entry /\
    wl_exit entry = (a + worklife_years_at a)%Z.
Proof.
  intros Ha.
  assert (Hn : exists n : nat, a = (25 + Z.of_nat n)%Z /\ (n < 46)%nat).
  { exists (Z.to_nat (a - 25)). lia. }
  destruct Hn as (n & -> & Hn).
  do 46 (destruct n as [|n]; [eexists; split; vm_compute; reflexivity|]).
  lia.
Qed.

(** X9. For a whole-number age k the exit age returned is k plus the
    horizon returned; when k is within 25..70 this is also the exit age
    stored in the table's row for k, so the computed and the stored exit age
    part ways only outside the table's range or at fractional ages. *)
Theorem lookupWorklife_exit_age_whole_age (age : Q) (k : Z) :
  age == inject_Z k ->
  exists w,
    lookupWorklife age = Some w /\
    Worklife.exitAge w = (k + Worklife.years w)%Z /\
    ((25 <= k <= 70)%Z ->
     exists entry,
       find (fun r => Z.eqb (wl_age r) k) WORKLIFE_TABLE = Some entry /\
       Worklife.exitAge w = wl_exit entry).
Proof.
  intros Hk. destruct (lookupWorklife_result age) as (w & Hw & Hy & He).
  exists w. split; [exact Hw|].
  assert (Hexit : Worklife.exitAge w = (k + Worklife.years w)%Z)
    by exact (lookupWorklife_exit_int age k w Hk Hw).
  split; [exact Hexit|].
  intros Hrange. destruct (WORKLIFE_TABLE_exit_column k Hrange)
    as (entry & Hfind & Hcol).
  exists entry. split; [exact Hfind|].
  rewrite Hexit, Hcol, Hy. unfold worklife_key.
  rewrite (Math_round_int age k Hk). do 2 f_equal. lia.
Qed.

Lemma lookupWorklife_exit_age_whole_age_witness :
  exists w entry,
    lookupWorklife 43 = Some w /\
    find (fun r => Z.eqb (wl_age r) 43) WORKLIFE_TABLE = Some entry /\
    Worklife.exitAge w = wl_exit entry.
Proof.
  destruct (lookupWorklife_exit_age_whole_age 43 43) as (w & Hw & _ & Hcol).
  - reflexivity.
  - destruct Hcol as (entry & Hfind & Hexit); [lia|].
    exists w, entry. repeat split; assumption.
Defined.

(** ** Rows and running variables of the year loop *)

Section YearLoopState.
Variable c : Config.
Variables effTax disc afterTaxAtStart : Q.

Local Abbreviation row := (year_row c effTax disc afterTaxAtStart).
Local Abbreviation body := (year_body c effTax disc afterTaxAtStart).
Local Abbreviation loop := (year_loop c effTax disc afterTaxAtStart).

Lemma row_earnGrowth t v : YearRow.earnGrowth (row t v) = growth_of_year c t.
Proof. unfold year_row. now destruct (unemploymentTiming c). Qed.





Lemma row_discounted t v :
  YearRow.discounted (row t v) =
  YearRow.postTaxAdjusted (row t v) / Math_pow (1 + disc) t.
Proof. unfold year_row. now destruct (unemploymentTiming c). Qed.



Lemma loop_pvSum_last n t v :
  Vars.pvSum (loop (S n) t v) =
  Vars.pvSum (loop n t v) +
  YearRow.discounted (row (t + Z.of_nat n) (loop n t v)).
Proof. now rewrite year_loop_last. Qed.

Lemma sumQ_snoc (l : list Q) (x : Q) : sumQ (l ++ [x]) == sumQ l + x.
Proof.
  induction l as [|y l IH]; simpl; [ring|]. rewrite IH. ring.
Qed.

(** [pvSum] grows by exactly the discounted values of the rows pushed. *)
Lemma loop_pvSum n t v :
  Vars.pvSum (loop n t v) ==
  Vars.pvSum v +
  sumQ (YearRow.discounted <$> loop_rows c effTax disc afterTaxAtStart n t v).
Proof.
  induction n as [|n IH].
  - simpl. ring.
  - rewrite loop_pvSum_last, IH. unfold loop_rows.
    rewrite seq_S, !fmap_app, !fmap_cons, !fmap_nil.
    rewrite sumQ_snoc. cbn [Nat.add]. ring.
Qed.



End YearLoopState.

Lemma results_rows_lookup (c : Config) (cy : Q) (i : nat) (r : YearRow.t) :
  Results.rows (results c cy) !! i = Some r <->
  (i < loop_count cy)%nat /\ r = results_row c i.
Proof.
  rewrite results_rows. split.
  - intros H. assert (Hi : (i < loop_count cy)%nat).
    { apply lookup_lt_Some in H. now rewrite loop_rows_length in H. }
    split; [exact Hi|]. rewrite loop_rows_lookup in H by exact Hi.
    now injection H as <-.
  - intros [Hi ->]. now rewrite loop_rows_lookup.
Qed.

Lemma loop_count_int (cy : Q) (k : Z) :
  cy == inject_Z k -> loop_count cy = Z.to_nat k.
Proof.
  intros H. unfold loop_count. now rewrite (Qfloor_comp _ _ H), Qfloor_Z.
Qed.

Lemma loop_count_below_1 (cy : Q) : cy < 1 -> loop_count cy = 0%nat.
Proof.
  intros H. unfold loop_count.
  assert (Hf : (Qfloor cy < 1)%Z).
  { rewrite Zlt_Qlt. eapply Qle_lt_trans; [apply Qfloor_le|exact H]. }
  lia.
Qed.

(** X10. The rows come numbered 1, 2, ... in order, the row of year t
    carries the attained age ageAtStart + t, and there are floor(calcYears)
    of them: exactly calcYears when that is a non-negative whole number. *)
Theorem results_rows_numbered (c : Config) (cy : Q) :
  length (Results.rows (results c cy)) = loop_count cy /\
  (forall k, cy == inject_Z k ->
     length (Results.rows (results c cy)) = Z.to_nat k) /\
  (forall i r, Results.rows (results c cy) !! i = Some r ->
     YearRow.year r = (1 + Z.of_nat i)%Z /\
     YearRow.age r = ageAtStart c + inject_Z (1 + Z.of_nat i)).
Proof.
  split; [apply results_rows_length|]. split.
  - intros k Hk. rewrite results_rows_length. now apply loop_count_int.
  - intros i r Hr. apply results_rows_lookup in Hr as [_ ->].
    unfold results_row. now rewrite row_year, row_age.
Qed.

Lemma results_rows_numbered_witness :
  length (Results.rows (results initial_config 11)) = 11%nat /\
  exists r, Results.rows (results initial_config 11) !! 3%nat = Some r /\
            YearRow.year r = 4%Z /\ YearRow.age r = 55 + inject_Z 4.
Proof.
  destruct (results_rows_numbered initial_config 11) as (_ & Hlen & Hrow).
  split.
  - apply (Hlen 11%Z). reflexivity.
  - exists (results_row initial_config 3). 
    assert (H : Results.rows (results initial_config 11) !! 3%nat =
                Some (results_row initial_config 3))
      by (apply results_rows_lookup; split; [vm_compute; lia|reflexivity]).
    split; [exact H|]. exact (Hrow _ _ H).
Defined.

(** X11. With a horizon below 1 (zero or negative years) the loop never
    runs: there are no rows, the gross present value is 0, and the net
    present value is 0 unless the offsets are negative. *)
Theorem results_empty_horizon (c : Config) (cy : Q) :
  cy < 1 ->
  Results.rows (results c cy) = [] /\
  Results.pvSum (results c cy) = 0 /\
  (0 <= Results.pvOffset (results c cy) -> Results.netPV (results c cy) = 0).
Proof.
  intros Hcy. unfold results.
  cbn [Results.rows Results.pvSum Results.pvOffset Results.netPV].
  rewrite (loop_count_below_1 cy Hcy). simpl year_loop.
  cbn [Vars.rows Vars.pvSum]. split; [reflexivity|]. split; [reflexivity|].
  intros Hoff. apply Math_max_0_nonpos. lra.
Qed.

Lemma results_empty_horizon_witness :
  Results.rows (results no_years_config 0) = [] /\
  Results.netPV (results no_years_config 0) = 0.
Proof.
  destruct (results_empty_horizon no_years_config 0) as (Hrows & _ & Hnet).
  - reflexivity.
  - split; [exact Hrows|]. apply Hnet. discriminate.
Defined.

(** The last row of a horizon of [n >= 1] whole years is the row of year n. *)
Lemma results_last_row (c : Config) (cy : Q) (n : Z) :
  cy == inject_Z n -> (1 <= n)%Z ->
  last (Results.rows (results c cy)) = Some (results_row c (Z.to_nat n - 1)) /\
  YearRow.age (results_row c (Z.to_nat n - 1)) == ageAtStart c + inject_Z n.
Proof.
  intros Hcy Hn. split.
  - rewrite last_lookup, results_rows_length, (loop_count_int cy n Hcy).
    apply results_rows_lookup. rewrite (loop_count_int cy n Hcy).
    split; [lia|]. f_equal. lia.
  - unfold results_row. rewrite row_age.
    replace (1 + Z.of_nat (Z.to_nat n - 1))%Z with n by lia. reflexivity.
Qed.

(** X12. The age in the last row is the expected exit age the component
    displays: with the firm table, for a whole-number starting age; with
    manual years, for a whole number of at least one year. *)
Theorem last_row_age_is_expected_exit_age (c : Config) :
  (useFirmWorklife c = true /\ exists k, ageAtStart c == inject_Z k) \/
  (useFirmWorklife c = false /\
   exists n, (1 <= n)%Z /\ years c == inject_Z n) ->
  exists w res r,
    lookupWorklife (ageAtStart c) = Some w /\
    VCFEstimator c = Some res /\
    last (Results.rows res) = Some r /\
    YearRow.age r == expectedExitAge c w.
Proof.
  intros Hcase.
  destruct (lookupWorklife_result (ageAtStart c)) as (w & Hw & Hy & _).
  exists w, (results c (calcYears c w)).
  assert (HV : VCFEstimator c = Some (results c (calcYears c w)))
    by (unfold VCFEstimator; now rewrite Hw).
  destruct Hcase as [[Hfirm [k Hk]]|[Hman (n & Hn & Hyears)]].
  - assert (Hcy : calcYears c w == inject_Z (Worklife.years w))
      by (unfold calcYears; now rewrite Hfirm).
    assert (Hpos : (1 <= Worklife.years w)%Z).
    { rewrite Hy.
      pose proof (worklife_years_at_range _ (worklife_key_range (ageAtStart c))).
      lia. }
    destruct (results_last_row c _ _ Hcy Hpos) as [Hlast Hage].
    eexists. split; [exact Hw|]. split; [exact HV|]. split; [exact Hlast|].
    rewrite Hage. unfold expectedExitAge. rewrite Hfirm.
    rewrite (lookupWorklife_exit_int _ k w Hk Hw), inject_Z_plus, Hk.
    reflexivity.
  - assert (Hcy : calcYears c w == inject_Z n)
      by (unfold calcYears; now rewrite Hman).
    destruct (results_last_row c _ _ Hcy Hn) as [Hlast Hage].
    eexists. split; [exact Hw|]. split; [exact HV|]. split; [exact Hlast|].
    rewrite Hage. unfold expectedExitAge. rewrite Hman, Hyears. reflexivity.
Qed.

Lemma last_row_age_is_expected_exit_age_witness :
  exists res r,
    VCFEstimator scenario_config = Some res /\
    last (Results.rows res) = Some r /\
    YearRow.age r == 66.
Proof.
  destruct (last_row_age_is_expected_exit_age scenario_config)
    as (w & res & r & Hw & Hres & Hlast & Hage).
  - left. split; [reflexivity|]. exists 55%Z. reflexivity.
  - exists res, r. split; [exact Hres|]. split; [exact Hlast|].
    rewrite Hage. vm_compute in Hw. injection Hw as <-. reflexivity.
Defined.

(** X13. The gross present value is the sum of the rows' discounted
    values, each of which is the row's pre-discount subtotal divided by
    (1 + discount rate) to the power of the row's year. *)
Theorem gross_pv_is_sum_of_discounted_rows (c : Config) (cy : Q) :
  let res := results c cy in
  Results.pvSum res == sumQ (YearRow.discounted <$> Results.rows res) /\
  (forall i r, Results.rows res !! i = Some r ->
     YearRow.discounted r =
     YearRow.postTaxAdjusted r / Math_pow (1 + Results.disc res) (YearRow.year r)).
Proof.
  intros res. subst res. split.
  - rewrite results_rows. unfold results. cbn [Results.pvSum].
    rewrite loop_pvSum. cbn [Vars.pvSum]. ring.
  - intros i r Hr. apply results_rows_lookup in Hr as [_ ->].
    unfold results_row. rewrite row_discounted, row_year. reflexivity.
Qed.

Lemma gross_pv_is_sum_of_discounted_rows_witness :
  exists r,
    Results.rows (results initial_config 11) !! 1%nat = Some r /\
    YearRow.discounted r = YearRow.postTaxAdjusted r / Math_pow (1 + 0.021) 2.
Proof.
  destruct (gross_pv_is_sum_of_discounted_rows initial_config 11)
    as (_ & Hrow).
  exists (results_row initial_config 1).
  assert (H : Results.rows (results initial_config 11) !! 1%nat =
              Some (results_row initial_config 1))
    by (apply results_rows_lookup; split; [vm_compute; lia|reflexivity]).
  split; [exact H|]. exact (Hrow _ _ H).
Defined.





(** ** The two orderings side by side *)

Section Orderings.
Variable c : Config.
Variables effTax disc afterTaxAtStart : Q.

Local Abbreviation row := (year_row c effTax disc afterTaxAtStart).



End Orderings.



(** ** The Manual switches *)

(** The year loop and the offset loop never read the two settings. *)
Lemma year_loop_setTaxRate (x : Setting) (c : Config) (e d a : Q) (n : nat) :
  forall t v,
    year_loop (setTaxRate x c) e d a n t v = year_loop c e d a n t v.
Proof.
  induction n as [|n IH]; intros t v; [reflexivity|].
  simpl year_loop. rewrite IH. reflexivity.
Qed.

Lemma year_loop_setDiscountOverride (x : Setting) (c : Config) (e d a : Q)
    (n : nat) :
  forall t v,
    year_loop (setDiscountOverride x c) e d a n t v = year_loop c e d a n t v.
Proof.
  induction n as [|n IH]; intros t v; [reflexivity|].
  simpl year_loop. rewrite IH. reflexivity.
Qed.

Lemma offset_loop_setTaxRate (x : Setting) (c : Config) (d : Q) (n : nat) :
  forall t acc,
    offset_loop (setTaxRate x c) d n t acc = offset_loop c d n t acc.
Proof.
  induction n as [|n IH]; intros t acc; [reflexivity|].
  simpl offset_loop. rewrite IH. reflexivity.
Qed.

Lemma offset_loop_setDiscountOverride (x : Setting) (c : Config) (d : Q)
    (n : nat) :
  forall t acc,
    offset_loop (setDiscountOverride x c) d n t acc = offset_loop c d n t acc.
Proof.
  induction n as [|n IH]; intros t acc; [reflexivity|].
  simpl offset_loop. rewrite IH. reflexivity.
Qed.

(** X17. Turning a Manual switch on changes no figure: the manual tax rate
    starts at the rate the bracket lookup gives for the base income, the
    manual discount rate at the rate of the starting age's band, so the
    results are the ones the automatic setting gave. *)
Theorem manual_switch_keeps_results (c : Config) (cy : Q) :
  (taxRate c = auto -> results (onTaxManualChange true c) cy = results c cy) /\
  (discountOverride c = auto ->
   results (onDiscountManualChange true c) cy = results c cy).
Proof.
  split; intros Hauto.
  - assert (He : resolve_effTax (onTaxManualChange true c) = resolve_effTax c)
      by (unfold resolve_effTax; rewrite Hauto; reflexivity).
    unfold results. rewrite He.
    change (resolve_disc (onTaxManualChange true c)) with (resolve_disc c).
    unfold onTaxManualChange.
    rewrite year_loop_setTaxRate, offset_loop_setTaxRate. reflexivity.
  - assert (Hd : resolve_disc (onDiscountManualChange true c) = resolve_disc c)
      by (unfold resolve_disc; rewrite Hauto; reflexivity).
    unfold results. rewrite Hd.
    change (resolve_effTax (onDiscountManualChange true c))
      with (resolve_effTax c).
    unfold onDiscountManualChange.
    rewrite year_loop_setDiscountOverride, offset_loop_setDiscountOverride.
    reflexivity.
Qed.

Lemma manual_switch_keeps_results_witness :
  results (onTaxManualChange true initial_config) 11 =
  results initial_config 11 /\
  results (onDiscountManualChange true initial_config) 11 =
  results initial_config 11.
Proof.
  destruct (manual_switch_keeps_results initial_config 11) as [Ht Hd].
  split; [apply Ht|apply Hd]; reflexivity.
Defined.

(** ** Offsets that are not negative *)

Lemma periodic_offset_sum_nonneg (a d : Q) (n : nat) :
  0 <= a -> 0 < 1 + d -> 0 <= periodic_offset_sum a d n.
Proof.
  intros Ha Hd. induction n as [|n IH]; [apply Qle_refl|].
  change (periodic_offset_sum a d (S n))
    with (periodic_offset_sum a d n + a / Math_pow (1 + d) (Z.of_nat (S n))).
  assert (Hpow : 0 < Math_pow (1 + d) (Z.of_nat (S n)))
    by (apply Qpower_0_lt; exact Hd).
  assert (Hterm : 0 <= a / Math_pow (1 + d) (Z.of_nat (S n))).
  { apply Qle_shift_div_l; [exact Hpow|]. lra. }
  lra.
Qed.

(** X18. With a discount rate above -100% and a lump sum that is not
    negative, the offsets present value is not negative, so the net present
    value never exceeds a gross present value that is itself not negative. *)
Theorem offsets_never_raise_net (c : Config) (cy : Q) :
  let res := results c cy in
  0 < 1 + Results.disc res -> 0 <= offsetLumpSum c ->
  0 <= Results.pvOffset res /\
  (0 <= Results.pvSum res -> Results.netPV res <= Results.pvSum res).
Proof.
  intros res Hd Hlump. subst res.
  assert (Hoff : 0 <= Results.pvOffset (results c cy)).
  { unfold results in *. cbn [Results.pvOffset Results.disc] in *.
    destruct (gtb (offsetAnnual c) 0 && gtb (offsetYears c) 0) eqn:E.
    - apply andb_true_iff in E as [Ea _]. apply gtb_true in Ea.
      rewrite offset_loop_sum.
      pose proof (periodic_offset_sum_nonneg (offsetAnnual c) (resolve_disc c)
                    (loop_count (offsetYears c)) (Qlt_le_weak _ _ Ea) Hd).
      lra.
    - lra. }
  split; [exact Hoff|]. intros Hgross.
  destruct (Qlt_le_dec (Results.pvOffset (results c cy))
              (Results.pvSum (results c cy))) as [Hlt|Hle].
  - unfold results in *.
    cbn [Results.pvOffset Results.pvSum Results.netPV] in *.
    rewrite Math_max_0_pos by lra. lra.
  - unfold results in *.
    cbn [Results.pvOffset Results.pvSum Results.netPV] in *.
    rewrite Math_max_0_nonpos by lra. exact Hgross.
Qed.

Lemma offsets_never_raise_net_witness :
  0 <= Results.pvOffset (results large_offset_config 11) /\
  Results.netPV (results large_offset_config 11) <=
  Results.pvSum (results large_offset_config 11).
Proof.
  destruct (offsets_never_raise_net large_offset_config 11) as [Hoff Hnet].
  - reflexivity.
  - discriminate.
  - split; [exact Hoff|]. apply Hnet. vm_compute. discriminate.
Defined.

(** ** Earnings growth along the horizon *)

(** Every tabulated growth rate lies between 3% and 9.523%. *)
Lemma AGE_GROWTH_values (k : Z) (r : Q) :
  AGE_GROWTH !! k = Some r -> 0.03 <= r <= 0.09523.
Proof.
  intros Hr. unfold AGE_GROWTH in Hr.
  apply elem_of_list_to_map_2 in Hr. unfold age_rate in Hr.
  repeat (apply elem_of_cons in Hr as [Hr|Hr];
          [injection Hr as -> ->; split; discriminate|]).
  inversion Hr.
Qed.

(** Outside the ages 18..51 nothing is tabulated. *)
Lemma AGE_GROWTH_outside (age : Q) :
  age < 18 \/ 52 <= age -> index_by_number AGE_GROWTH age = None.
Proof.
  intros Hout. apply index_by_number_unmapped. intros k Hk.
  destruct (AGE_GROWTH !! k) as [r|] eqn:E; [|reflexivity].
  exfalso. assert (Hkeys : (18 <= k <= 51)%Z)
    by (apply AGE_GROWTH_keys; now exists r).
  rewrite Hk in Hout. destruct Hout as [H|H].
  - change 18 with (inject_Z 18) in H. rewrite <- Zlt_Qlt in H. lia.
  - change 52 with (inject_Z 52) in H. rewrite <- Zle_Qle in H. lia.
Qed.

Lemma ageGrowth_default_range (age : Q) :
  0.03 <= ageGrowth age 0.03 <= 0.09523 /\
  (age < 18 \/ 52 <= age -> ageGrowth age 0.03 = 0.03).
Proof.
  unfold ageGrowth. split.
  - destruct (index_by_number AGE_GROWTH age) as [r|] eqn:E.
    + unfold index_by_number in E.
      destruct (Pos.eqb (Qden (Qred age)) 1); [|discriminate].
      exact (AGE_GROWTH_values _ _ E).
    + destruct (geb age 52); split; discriminate.
  - intros Hout. rewrite (AGE_GROWTH_outside age Hout).
    now destruct (geb age 52).
Qed.

(** X19. With age-specific growth selected, every year's growth rate lies
    between 3% and 9.523%, and it is exactly 3% in every year whose attained
    age is below 18 or at least 52: the loop never passes a fallback of its
    own, so the table's ages 18..51 are the only ones that differ from 3%. *)
Theorem age_specific_growth_range (c : Config) (cy : Q) (i : nat) (r : YearRow.t) :
  useAgeSpecificGrowth c = true ->
  Results.rows (results c cy) !! i = Some r ->
  0.03 <= YearRow.earnGrowth r <= 0.09523 /\
  (YearRow.age r < 18 \/ 52 <= YearRow.age r -> YearRow.earnGrowth r = 0.03).
Proof.
  intros Hage Hr. apply results_rows_lookup in Hr as [_ ->].
  unfold results_row. rewrite row_earnGrowth, row_age.
  unfold growth_of_year. rewrite Hage. apply ageGrowth_default_range.
Qed.

Lemma age_specific_growth_range_witness :
  YearRow.earnGrowth (results_row initial_config 2) = 0.03.
Proof.
  destruct (age_specific_growth_range initial_config 11 2
              (results_row initial_config 2)) as [_ Hflat].
  - reflexivity.
  - apply results_rows_lookup. split; [vm_compute; lia|reflexivity].
  - apply Hflat. right. vm_compute. discriminate.
Defined.





(** ** Consumption along the horizon *)

(** The dependent count of a year as the whole number it is. *)
Lemma getChildCountUnder23_int (ages : list (option Q)) (y : Q) :
  getChildCountUnder23 ages y =
  inject_Z (Z.min (fold_left (count_step y) ages 0%Z) 2).
Proof. reflexivity. Qed.

Lemma yearConsumption_mono (c : Config) (t1 t2 : Z) :
  (t1 <= t2)%Z -> yearConsumption c t1 <= yearConsumption c t2.
Proof.
  intros Ht. unfold yearConsumption.
  destruct (mode c); [apply Qle_refl|].
  destruct (manualConsumption c); [apply Qle_refl|].
  rewrite !getChildCountUnder23_int.
  destruct (shipped_consumption_row_in (baseIncome c)) as (r & Hin & Hr).
  rewrite !Hr. apply consumption_col_int_mono; [exact Hin|].
  assert (Hy : inject_Z t1 - 1 <= inject_Z t2 - 1).
  { rewrite Zle_Qle in Ht. lra. }
  pose proof (child_count_fold_mono _ _ [child1Age c; child2Age c] Hy 0 0
                (Z.le_refl 0)).
  lia.
Qed.

(** X21. The consumption rate never falls from one year to a later one:
    it is constant in injury mode (0) and with the manual rate, and with the
    shipped table it can only step up as dependents reach 23. *)
Theorem consumption_rate_never_falls (c : Config) (cy : Q) (i j : nat)
    (ri rj : YearRow.t) :
  (i <= j)%nat ->
  Results.rows (results c cy) !! i = Some ri ->
  Results.rows (results c cy) !! j = Some rj ->
  YearRow.consumptionRate ri <= YearRow.consumptionRate rj.
Proof.
  intros Hij Hi Hj.
  apply results_rows_lookup in Hi as [_ ->].
  apply results_rows_lookup in Hj as [_ ->].
  unfold results_row. rewrite !row_consumptionRate.
  apply yearConsumption_mono. lia.
Qed.

Lemma consumption_rate_never_falls_witness :
  YearRow.consumptionRate (results_row two_children_config 1) <=
  YearRow.consumptionRate (results_row two_children_config 4).
Proof.
  apply (consumption_rate_never_falls two_children_config 11 1 4).
  - lia.
  - apply results_rows_lookup. split; [vm_compute; lia|reflexivity].
  - apply results_rows_lookup. split; [vm_compute; lia|reflexivity].
Defined.

(** X22. In wrongful-death mode with the tax rate and the consumption rate
    both read from the shipped tables and a base income that is not
    negative, each year's consumption dollars lie between 0 and the base
    income: the deduction never turns into an addition and never exceeds
    what was earned at the moment of loss. *)
Theorem consumption_dollars_bounded (c : Config) (cy : Q) (i : nat)
    (r : YearRow.t) :
  mode c = wrongfulDeath -> taxRate c = auto -> manualConsumption c = false ->
  0 <= baseIncome c ->
  Results.rows (results c cy) !! i = Some r ->
  0 <= YearRow.consumptionAmt r <= baseIncome c.
Proof.
  intros Hmode Htax Hman Hbase Hr.
  apply results_rows_lookup in Hr as [_ ->].
  unfold results_row. rewrite row_consumptionAmt.
  unfold consumptionAmt_of, yearConsumption. rewrite Hmode, Hman.
  unfold resolve_effTax. rewrite Htax.
  destruct (shipped_consumption_row_in (baseIncome c)) as (r & Hin & Hr).
  rewrite Hr.
  pose proof (CONSUMPTION_TABLE_range r (marital c)
    (getChildCountUnder23 [child1Age c; child2Age c]
       (inject_Z (1 + Z.of_nat i) - 1)) Hin) as [Hlo Hhi].
  pose proof (shipped_tax_rate_bounds (baseIncome c)) as [Htlo Hthi].
  set (rate := consumption_col _ _ r) in *.
  set (tax := interpolateTaxRate _ _) in *.
  assert (H1 : 0 <= 1 - tax <= 1) by lra.
  assert (H2 : 0 <= rate <= 1) by lra.
  assert (H3 : 0 <= baseIncome c * (1 - tax) <= baseIncome c) by nra.
  nra.
Qed.

Lemma consumption_dollars_bounded_witness :
  0 <= YearRow.consumptionAmt (results_row scenario_config 0) <= 100000.
Proof.
  apply (consumption_dollars_bounded scenario_config 11 0).
  - reflexivity.
  - reflexivity.
  - reflexivity.
  - discriminate.
  - apply results_rows_lookup. split; [vm_compute; lia|reflexivity].
Defined.

(** ** Medical growth mode *)

(** X23. Whatever the user selects and types, the medical growth rate stays
    in step with the selector: it is 2.3% whenever the mode is CPI and 3.04%
    whenever the mode is CPI + medical; only the custom mode lets it be
    anything else. *)
Theorem medical_growth_in_sync (s : MedicalGrowthState) :
  medical_growth_reachable s ->
  (medicalGrowthMode s = cpi -> medicalGrowthRate s = 0.023) /\
  (medicalGrowthMode s = cpi_medical -> medicalGrowthRate s = 0.0304).
Proof.
  induction 1 as [|e s s' Hreach IH Hstep].
  - split; [reflexivity|discriminate].
  - destruct e as [v|x]; simpl in Hstep.
    + injection Hstep as <-. destruct v; simpl; split;
        intros; try reflexivity; discriminate.
    + destruct (medicalGrowthMode s); try discriminate.
      injection Hstep as <-. simpl. split; discriminate.
Qed.

Lemma medical_growth_in_sync_witness :
  medicalGrowthRate
    (onMedicalGrowthModeChange cpi_medical
       (mkMedicalGrowth custom 0.05)) = 0.0304.
Proof.
  apply (medical_growth_in_sync
           (onMedicalGrowthModeChange cpi_medical (mkMedicalGrowth custom 0.05))).
  - apply (reach_step (SelectMode cpi_medical) (mkMedicalGrowth custom 0.05));
      [|reflexivity].
    apply (reach_step (TypeRate 0.05) (mkMedicalGrowth custom 0.023));
      [|reflexivity].
    apply (reach_step (SelectMode custom) initial_medical_growth);
      [apply reach_initial|reflexivity].
  - reflexivity.
Defined.
